(** * Social network store: CSV loader and the three look-up queries

    A shallow embedding of the graded notebook cells [create_database],
    [load_data_from_csv], [get_club_members], [get_friends_of_person] and
    [get_persons_who_consider_them_friend], and, at the end of the
    definitions, of the [Singleton] class of [module_3/Singleton.ipynb].

    What is modelled, and how:

    - The data base is its four tables, each a list of rows in the order
      the rows were inserted; a SELECT without ORDER BY walks a table in
      that order.  The order of [club_members] decides the order of
      [club.members]; the order of [people] decides whom [.first()] picks
      among persons of one name; no theorem below relies on it, and in
      the inputs of the counterexamples the first of a name in the input
      also has the least id.
    - The primary keys declared by [create_database] are checked when a
      commit flushes the new rows: [people.id], [clubs.id],
      [(friendships.person_id, friendships.friend_id)] and
      [(club_members.person_id, club_members.club_id)].  Foreign keys are
      declared but not enforced by SQLite, and are not checked here.
    - An INTEGER column holds 64 bits, signed.  The integers the loader
      gives to the data base are the id and the age of each person, as
      Python ints: one outside that range raises [OverflowError] when its
      row is bound at the flush.  The persons are inserted one after the
      other in the order they were added, so the first row at fault
      decides between [OverflowError] and [IntegrityError].  The ids of
      clubs are given by the data base and the association rows hold ids
      of rows written before.
    - A [Store] is the data base as committed.  What a failed first loop
      leaves unflushed in the session (at most the person of the first
      row, with no club and no friend) is not part of it.  Neither is the
      state of the caller's session: a commit that raised leaves it in a
      failed transaction, in which every further query raises
      [PendingRollbackError] until a rollback, and the loader does none
      (its next call starts with [session.close()], which ends that
      state).  The queries below are functions of the committed data
      base: they are what a session in a clean state returns, as the
      caller's is after a load that ended well or that raised outside a
      commit with nothing pending, and as any new session is.
    - The cells of a frame are typed: ids and ages are integers, the two
      list columns are lists.  A frame may lack columns. *)

From stdpp Require Import gmap strings list.

Set Warnings "-clear-no-such-hyp".

Open Scope Z_scope.

(** ** Exceptions *)

Inductive pykey :=
  | KStr (s : string)
  | KInt (z : Z).

Inductive exn :=
  | FileNotFoundError           (* pd.read_csv: no such file *)
  | SyntaxError                 (* pd.read_csv: eval of a list cell raised *)
  | KeyError (k : pykey)        (* row[c] on a missing column, d[k] on a missing key *)
  | IntegrityError              (* a primary key is violated at flush *)
  | OverflowError.              (* an integer outside 64 bits is bound at flush *)

Inductive result (A : Type) :=
  | Ok (a : A)
  | Raise (e : exn).
Arguments Ok {A} a.
Arguments Raise {A} e.

#[global] Instance result_ret : MRet result := λ A a, Ok a.
#[global] Instance result_bind : MBind result := λ A B f r,
  match r with
  | Ok a => f a
  | Raise e => Raise e
  end.

Definition raises {A} (r : result A) : Prop :=
  match r with Ok _ => False | Raise _ => True end.

(** Monadic left fold: a [for] loop whose body may raise. *)
Fixpoint foldM {A B} (f : A → B → result A) (a : A) (l : list B) : result A :=
  match l with
  | [] => Ok a
  | b :: l => a' ← f a b; foldM f a' l
  end.

(** ** Schema ([create_database]) *)

Module Person.
Record t := mk {
  id : Z;
  name : string;
  age : Z;
  gender : string;
  location : string
}.
End Person.

Module Club.
Record t := mk {
  id : Z;
  description : string
}.
End Club.

(** The four tables.  A row of [friendships] is [(person_id, friend_id)],
    a row of [club_members] is [(person_id, club_id)]. *)
Record Store := mkStore {
  people : list Person.t;
  clubs : list Club.t;
  friendships : list (Z * Z);
  club_members : list (Z * Z)
}.

Definition empty_store : Store := mkStore [] [] [] [].

(** ** The input frame

    [pd.read_csv] yields a frame: the columns found in the header and one
    row per line.  [row[c]] raises [KeyError] when the frame has no column
    [c]; the cell of a column the frame does not have is never read. *)

Record Row := mkRow {
  ID : Z;
  Name : string;
  Surname : string;
  Age : Z;
  Gender : string;
  Location : string;
  Clubs : list string;
  Friendships : list Z
}.

Record DataFrame := mkFrame {
  columns : list string;
  rows : list Row
}.

Definition all_columns : list string :=
  ["ID"; "Name"; "Surname"; "Age"; "Gender"; "Location"; "Clubs"; "Friendships"]%string.

Definition getitem {A} (df : DataFrame) (c : string) (cell : A) : result A :=
  if decide (c ∈ columns df) then Ok cell else Raise (KeyError (KStr c)).

(** What [pd.read_csv(path, converters = {'Friendships': eval, "Clubs": eval})]
    gives for each path: a frame, or the exception it raises. *)
Definition Files := string → result DataFrame.

(** ** The session between two commits

    Objects added to the session and not yet flushed.  A new Club has no id
    before the flush; it is known by its handle, its position in
    [new_clubs].  A membership appended to [club.members] names the person
    by id and the club by handle; a friendship appended to
    [person.friends] names both persons by id. *)

Record Pending := mkPending {
  new_people : list Person.t;
  new_clubs : list string;
  new_members : list (Z * nat);
  new_friends : list (Z * Z)
}.

Definition nothing_pending : Pending := mkPending [] [] [] [].

(** SQLite gives a row inserted without an id one more than the largest id
    of the table. *)
Definition max_id (cs : list Club.t) : Z :=
  foldr (λ c m, Z.max (Club.id c) m) 0 cs.

Definition club_row (base : Z) (handle : nat) (d : string) : Club.t :=
  Club.mk (base + 1 + Z.of_nat handle) d.

Definition member_row (base : Z) (m : Z * nat) : Z * Z :=
  (m.1, base + 1 + Z.of_nat m.2).

(** An INTEGER of SQLite has 64 bits, signed: binding a Python int outside
    that range raises [OverflowError].  The integers the code itself gives
    to the data base are the id and the age of a person. *)
Definition int64 (z : Z) : Prop := - 2 ^ 63 ≤ z < 2 ^ 63.

#[global] Instance int64_dec z : Decision (int64 z) :=
  ltac:(unfold int64; apply _).

Definition bindable (p : Person.t) : Prop :=
  int64 (Person.id p) ∧ int64 (Person.age p).

#[global] Instance bindable_dec p : Decision (bindable p) :=
  ltac:(unfold bindable; apply _).

(** INSERT INTO people, the new persons one after the other in the order
    they were added: the values of a row are bound, then the row is
    written, which fails when its id is taken. *)
Fixpoint insert_people (table new : list Person.t) : result (list Person.t) :=
  match new with
  | [] => Ok table
  | p :: new =>
      if decide (bindable p) then
        if decide (Person.id p ∈ Person.id <$> table) then Raise IntegrityError
        else insert_people (table ++ [p]) new
      else Raise OverflowError
  end.

(** [session.commit()]: flush the pending objects, then commit: the
    persons first, then the clubs, whose ids the data base gives, then the
    rows of the two association tables, whose integers are ids of rows
    written before.  An error raises and nothing of the flush is written;
    the session stays in the failed transaction until a rollback. *)
Definition commit (db : Store) (p : Pending) : result Store :=
  people' ← insert_people (people db) (new_people p);
  let base := max_id (clubs db) in
  let clubs' := clubs db ++ imap (club_row base) (new_clubs p) in
  let members' := club_members db ++ (member_row base <$> new_members p) in
  let friends' := friendships db ++ new_friends p in
  if decide (NoDup (Club.id <$> clubs') ∧ NoDup members' ∧ NoDup friends')
  then Ok (mkStore people' clubs' friends' members')
  else Raise IntegrityError.

(** ** [load_data_from_csv] *)

(** Step 1, lines 371-381: the four bulk deletes and their commit. *)
Definition delete_all (s : Store) : Store :=
  let s := mkStore [] (clubs s) (friendships s) (club_members s) in
  let s := mkStore (people s) [] (friendships s) (club_members s) in
  let s := mkStore (people s) (clubs s) [] (club_members s) in
  mkStore (people s) (clubs s) (friendships s) [].

(** The state of the first loop: the session and the two dictionaries. *)
Record Pass1 := mkPass1 {
  pending : Pending;
  clubs_dict : gmap string nat;
  people_dict : gmap Z Person.t
}.

Definition pass1_init : Pass1 := mkPass1 nothing_pending ∅ ∅.

(** Lines 399-408. *)
Definition add_person (st : Pass1) (person : Person.t) : Pass1 :=
  let p := pending st in
  mkPass1 (mkPending (new_people p ++ [person]) (new_clubs p) (new_members p) (new_friends p))
          (clubs_dict st)
          (<[Person.id person := person]> (people_dict st)).

(** Lines 412-421, one turn of the inner loop. *)
Definition join_club (person : Person.t) (st : Pass1) (club_description : string) : Pass1 :=
  let p := pending st in
  match clubs_dict st !! club_description with
  | None =>
      let club := length (new_clubs p) in
      mkPass1 (mkPending (new_people p) (new_clubs p ++ [club_description])
                         (new_members p ++ [(Person.id person, club)]) (new_friends p))
              (<[club_description := club]> (clubs_dict st))
              (people_dict st)
  | Some club =>
      mkPass1 (mkPending (new_people p) (new_clubs p)
                         (new_members p ++ [(Person.id person, club)]) (new_friends p))
              (clubs_dict st)
              (people_dict st)
  end.

Definition display_name (given surname : string) : string :=
  given +:+ " " +:+ surname.

(** Lines 397-421, one turn of the outer loop. *)
Definition add_row (df : DataFrame) (st : Pass1) (row : Row) : result Pass1 :=
  i ← getitem df "ID" (ID row);
  n ← getitem df "Name" (Name row);
  sn ← getitem df "Surname" (Surname row);
  a ← getitem df "Age" (Age row);
  g ← getitem df "Gender" (Gender row);
  l ← getitem df "Location" (Location row);
  let person := Person.mk i (display_name n sn) a g l in
  let st := add_person st person in
  cl ← getitem df "Clubs" (Clubs row);
  Ok (foldl (join_club person) st cl).

(** Lines 429-431, one turn of the inner loop of step 4. *)
Definition befriend (people_dict : gmap Z Person.t) (person : Person.t)
    (p : Pending) (friend_id : Z) : Pending :=
  match people_dict !! friend_id with
  | Some friend =>
      mkPending (new_people p) (new_clubs p) (new_members p)
                (new_friends p ++ [(Person.id person, Person.id friend)])
  | None => p
  end.

(** Lines 427-431, one turn of the outer loop of step 4. *)
Definition wire_row (df : DataFrame) (people_dict : gmap Z Person.t)
    (p : Pending) (row : Row) : result Pending :=
  i ← getitem df "ID" (ID row);
  person ← match people_dict !! i with
           | Some person => Ok person
           | None => Raise (KeyError (KInt i))
           end;
  fl ← getitem df "Friendships" (Friendships row);
  Ok (foldl (befriend people_dict person) p fl).

(** Lines 389-434, once the tables are cleared: the store left behind and
    how the call ends. *)
Definition load_frame (db0 : Store) (read : result DataFrame) : Store * result () :=
  match read with
  | Raise e => (db0, Raise e)
  | Ok df =>
    match foldM (add_row df) pass1_init (rows df) with
    | Raise e => (db0, Raise e)
    | Ok st =>
      match commit db0 (pending st) with
      | Raise e => (db0, Raise e)
      | Ok db1 =>
        match foldM (wire_row df (people_dict st)) nothing_pending (rows df) with
        | Raise e => (db1, Raise e)
        | Ok p =>
          match commit db1 p with
          | Raise e => (db1, Raise e)
          | Ok db2 => (db2, Ok ())
          end
        end
      end
    end
  end.

(** The whole function.  The deletes of step 1 do not fail, so the handler
    of lines 382-386 is never entered.  Line 389 reads the file whatever
    [csv_path] is. *)
Definition load_data_from_csv (read_csv : Files) (session : Store)
    (csv_path : string) : Store * result () :=
  let session := delete_all session in
  load_frame session (read_csv "members.csv"%string).

(** ** The queries *)

(** [club.members]: the rows of [club_members] of the club, joined with [people]. *)
Definition Club_members (s : Store) (club : Club.t) : list Person.t :=
  m ← filter (λ m, m.2 = Club.id club) (club_members s);
  filter (λ q, Person.id q = m.1) (people s).

(** [person.friends]: the rows of [friendships] leaving the person, joined
    with [people] on [friend_id]. *)
Definition Person_friends (s : Store) (person : Person.t) : list Person.t :=
  e ← filter (λ e, e.1 = Person.id person) (friendships s);
  filter (λ q, Person.id q = e.2) (people s).

(** [session.query(Club).filter(Club.description == d).first()] *)
Definition find_club (s : Store) (d : string) : option Club.t :=
  head (filter (λ c, Club.description c = d) (clubs s)).

(** [session.query(Person).filter(Person.name == n).first()] *)
Definition find_person (s : Store) (n : string) : option Person.t :=
  head (filter (λ q, Person.name q = n) (people s)).

Definition get_club_members (session : Store) (club_description : string) : list Person.t :=
  match find_club session club_description with
  | Some club => Club_members session club
  | None => []
  end.

Definition get_friends_of_person (session : Store) (person_name : string) : list Person.t :=
  match find_person session person_name with
  | Some person => Person_friends session person
  | None => []
  end.

(** [Person.friends.any(Person.id == target)], as the EXISTS it compiles to. *)
Definition has_friend (s : Store) (target : Z) (p : Person.t) : Prop :=
  Exists (λ e, e.1 = Person.id p
               ∧ Exists (λ q, Person.id q = e.2 ∧ Person.id q = target) (people s))
         (friendships s).

#[global] Instance has_friend_dec s target p : Decision (has_friend s target p) :=
  ltac:(unfold has_friend; apply _).

Definition get_persons_who_consider_them_friend (session : Store) (person_name : string)
    : list Person.t :=
  match find_person session person_name with
  | None => []
  | Some target_person =>
      filter (has_friend session (Person.id target_person)) (people session)
  end.

(** ** What a load amounts to, in closed form

    These follow the input, not the code; the lemmas below prove that the
    code computes them. *)

(** The person line 399 builds from a record. *)
Definition person_of_row (r : Row) : Person.t :=
  Person.mk (ID r) (display_name (Name r) (Surname r)) (Age r) (Gender r) (Location r).

(** The distinct elements of a list, in the order they are first seen. *)
Definition first_seen (l : list string) : list string :=
  foldl (λ acc d, if decide (d ∈ acc) then acc else acc ++ [d]) [] l.

(** The memberships of the input, as (person id, club description), in the
    order the first loop appends them. *)
Definition membership_pairs (rs : list Row) : list (Z * string) :=
  r ← rs; (λ d, (ID r, d)) <$> Clubs r.

(** The friendships of the input whose target was loaded, in the order the
    second loop appends them. *)
Definition friend_pairs (rs : list Row) : list (Z * Z) :=
  r ← rs; (λ f, (ID r, f)) <$> filter (λ f, f ∈ ID <$> rs) (Friendships r).

(** The position of the first [d] in [cs] (the length of [cs] if none). *)
Fixpoint index_of (d : string) (cs : list string) : nat :=
  match cs with
  | [] => 0
  | c :: cs => if decide (c = d) then 0 else S (index_of d cs)
  end.

(** Every description of the input, in reading order. *)
Definition all_clubs (rs : list Row) : list string := rs ≫= Clubs.

(** The clubs table: the distinct descriptions numbered from 1 in the order
    they are first seen. *)
Definition club_table (rs : list Row) : list Club.t :=
  imap (club_row 0) (first_seen (all_clubs rs)).

(** The id of the club of a description, and the membership rows. *)
Definition club_id_of (rs : list Row) (d : string) : Z :=
  1 + Z.of_nat (index_of d (first_seen (all_clubs rs))).

Definition member_table (rs : list Row) : list (Z * Z) :=
  (λ x, (x.1, club_id_of rs x.2)) <$> membership_pairs rs.

(** What the first commit needs to pass: ids and ages that fit an INTEGER,
    no id twice, no membership twice. *)
Definition row_bindable (r : Row) : Prop := int64 (ID r) ∧ int64 (Age r).

#[global] Instance row_bindable_dec r : Decision (row_bindable r) :=
  ltac:(unfold row_bindable; apply _).

Definition first_commit_ok (rs : list Row) : Prop :=
  Forall row_bindable rs ∧ NoDup (ID <$> rs) ∧ NoDup (membership_pairs rs).

#[global] Instance first_commit_ok_dec rs : Decision (first_commit_ok rs) :=
  ltac:(unfold first_commit_ok; apply _).

(** The error of the first commit when it does not pass. *)
Definition first_commit_error (rs : list Row) : exn :=
  match insert_people [] (person_of_row <$> rs) with
  | Raise e => e
  | Ok _ => IntegrityError
  end.

(** The store after the first commit, and after the second. *)
Definition half_loaded (rs : list Row) : Store :=
  mkStore (person_of_row <$> rs) (club_table rs) [] (member_table rs).

Definition loaded (rs : list Row) : Store :=
  mkStore (person_of_row <$> rs) (club_table rs) (friend_pairs rs) (member_table rs).

(** The columns read by the first loop. *)
Definition pass1_columns : list string :=
  ["ID"; "Name"; "Surname"; "Age"; "Gender"; "Location"; "Clubs"]%string.

(** One turn of each outer loop when no [row[c]] raises. *)
Definition add_row_pure (st : Pass1) (r : Row) : Pass1 :=
  foldl (join_club (person_of_row r)) (add_person st (person_of_row r)) (Clubs r).

Definition wire_row_pure (rs : list Row) (p : Pending) (r : Row) : Pending :=
  mkPending (new_people p) (new_clubs p) (new_members p)
            (new_friends p ++
             ((λ f, (ID r, f)) <$> filter (λ f, f ∈ ID <$> rs) (Friendships r))).

(** ** What the loops keep true *)

(** What the inner loop keeps true of the clubs: [ds] lists the memberships
    appended so far, as (person id, description). *)
Record clubs_inv (ds : list (Z * string)) (st : Pass1) : Prop := mkClubsInv {
  inv_clubs : new_clubs (pending st) = first_seen ds.*2;
  inv_dict : ∀ d h, clubs_dict st !! d = Some h ↔ new_clubs (pending st) !! h = Some d;
  inv_members :
    Forall2 (λ m x, m.1 = x.1 ∧ new_clubs (pending st) !! m.2 = Some x.2)
            (new_members (pending st)) ds
}.

(** What the outer loop keeps true after the rows [rs]. *)
Record pass1_inv (rs : list Row) (st : Pass1) : Prop := mkPass1Inv {
  inv_people : new_people (pending st) = person_of_row <$> rs;
  inv_friends : new_friends (pending st) = [];
  inv_dict_id : ∀ i p, people_dict st !! i = Some p → Person.id p = i;
  inv_dict_dom : ∀ i, is_Some (people_dict st !! i) ↔ i ∈ ID <$> rs;
  inv_memberships : clubs_inv (membership_pairs rs) st
}.

(** ** Notions the claims are stated with *)

(** A record whose display name no other record has. *)
Definition name_unique (rs : list Row) (r : Row) : Prop :=
  ∀ r', r' ∈ rs →
    display_name (Name r') (Surname r') = display_name (Name r) (Surname r) → r' = r.

(** The frame without the friend ids that name no record. *)
Definition drop_dangling_row (ids : list Z) (r : Row) : Row :=
  mkRow (ID r) (Name r) (Surname r) (Age r) (Gender r) (Location r) (Clubs r)
        (filter (λ f, f ∈ ids) (Friendships r)).

Definition drop_dangling (df : DataFrame) : DataFrame :=
  mkFrame (columns df) (drop_dangling_row (ID <$> rows df) <$> rows df).

(** The input is malformed: reading it raises (a list literal that [eval]
    cannot parse, for one), or a row is there and a column is not. *)
Definition malformed (read : result DataFrame) : Prop :=
  match read with
  | Raise _ => True
  | Ok df => rows df ≠ [] ∧ ¬ all_columns ⊆ columns df
  end.

(** ** Inputs and stores the examples run on *)

(** The scenario of the specification. *)
Definition scenario : DataFrame :=
  mkFrame all_columns
    [ mkRow 0 "John" "Rocha" 57 "Male" "MN" ["Fitness Club"] [1];
      mkRow 1 "Amanda" "Norris" 27 "Female" "CA" ["Fitness Club"] [];
      mkRow 2 "Ghost" EmptyString 30 "Male" "NY" [] [0] ]%string.

Definition john : Person.t := Person.mk 0 "John Rocha" 57 "Male" "MN".
Definition amanda : Person.t := Person.mk 1 "Amanda Norris" 27 "Female" "CA".
Definition ghost : Person.t := Person.mk 2 "Ghost " 30 "Male" "NY".

Definition scenario_store : Store :=
  (load_frame empty_store (Ok scenario)).1.

(** A store left by an earlier load of other data. *)
Definition stale_store : Store :=
  mkStore [Person.mk 7 "Old Timer" 80 "Male" "TX"] [Club.mk 1 "Chess Club"] [(7, 7)] [(7, 1)].

Definition only_members_csv : Files :=
  λ path, if decide (path = "members.csv"%string) then Ok scenario else Raise FileNotFoundError.

(** Two records bear one name; the second lists a friend.  The first of
    the name is first both by id and in the input. *)
Definition sam_the_elder : Row := mkRow 0 "Sam" "Lee" 40 "Male" "OR" [] [].
Definition sam_the_younger : Row := mkRow 1 "Sam" "Lee" 20 "Male" "WA" [] [2].
Definition kim : Row := mkRow 2 "Kim" "Roe" 30 "Female" "ID" [] [].

Definition namesakes : DataFrame :=
  mkFrame all_columns [sam_the_elder; sam_the_younger; kim].

Definition namesakes_store : Store := (load_frame empty_store (Ok namesakes)).1.

(** Two records bear the name of the target; the first of them, by id and
    in the input, lists record 1. *)
Definition kim_the_elder : Row := mkRow 0 "Kim" "Roe" 60 "Female" "MT" [] [1].
Definition lee : Row := mkRow 1 "Lee" "Ash" 20 "Male" "WA" [] [2].

Definition namesakes_of_target : DataFrame :=
  mkFrame all_columns [kim_the_elder; lee; kim].

Definition namesakes_of_target_store : Store :=
  (load_frame empty_store (Ok namesakes_of_target)).1.

(** Two records bear one name; the second, by id and in the input, lists
    the first. *)
Definition ann_the_first : Row := mkRow 0 "Ann" "Ray" 50 "Female" "UT" [] [].
Definition ann_the_second : Row := mkRow 1 "Ann" "Ray" 25 "Female" "NV" [] [0].

Definition homonyms : DataFrame := mkFrame all_columns [ann_the_first; ann_the_second].

Definition homonyms_store : Store := (load_frame empty_store (Ok homonyms)).1.

(** A record that lists a later record and an id that names nobody. *)
Definition forward_and_dangling : DataFrame :=
  mkFrame all_columns
    [ mkRow 0 "Eve" "Fox" 31 "Female" "ME" [] [1; 99];
      mkRow 1 "Dan" "Orr" 32 "Male" "VT" [] [] ]%string.

(** A frame whose header lacks the Friendships column. *)
Definition no_friendships_column : DataFrame :=
  mkFrame pass1_columns [mkRow 0 "John" "Rocha" 57 "Male" "MN" ["Fitness Club"%string] []].

(** A friend id written twice in one record. *)
Definition repeated_friend : DataFrame :=
  mkFrame all_columns
    [ mkRow 0 "Eve" "Fox" 31 "Female" "ME" [] [1; 1];
      mkRow 1 "Dan" "Orr" 32 "Male" "VT" [] [] ]%string.

(** Two well-formed rows with one id. *)
Definition twins : DataFrame :=
  mkFrame all_columns
    [ mkRow 3 "Ada" "Poe" 44 "Female" "OH" [] [];
      mkRow 3 "Bob" "Poe" 45 "Male" "OH" [] [] ]%string.

(** "members.csv" beside another file with other records. *)
Definition two_files : Files :=
  λ path, if decide (path = "members.csv"%string) then Ok scenario
          else if decide (path = "other.csv"%string) then Ok twins
          else Raise FileNotFoundError.

(** An id one above the largest INTEGER, as pandas reads it from the file
    into a column of unsigned integers. *)
Definition beyond_int64 : DataFrame :=
  mkFrame all_columns
    [ mkRow 0 "Eve" "Fox" 31 "Female" "ME" ["Chess Club"] [];
      mkRow (2 ^ 63) "Dan" "Orr" 32 "Male" "VT" [] [] ]%string.

(** The same without the Friendships column. *)
Definition beyond_int64_no_friendships : DataFrame :=
  mkFrame pass1_columns (rows beyond_int64).

(** ** Constraints of the schema *)

(** The primary keys of [create_database]: no two persons with one id, no
    two clubs with one id, no friendship row twice, no membership row
    twice. *)
Definition well_keyed (s : Store) : Prop :=
  NoDup (Person.id <$> people s) ∧ NoDup (Club.id <$> clubs s)
  ∧ NoDup (friendships s) ∧ NoDup (club_members s).

(** The foreign keys of [create_database]: both ends of a friendship row
    are ids of [people]; a membership row joins an id of [people] and an id
    of [clubs]. *)
Definition references_resolve (s : Store) : Prop :=
  (∀ e, e ∈ friendships s →
     e.1 ∈ Person.id <$> people s ∧ e.2 ∈ Person.id <$> people s)
  ∧ (∀ m, m ∈ club_members s →
       m.1 ∈ Person.id <$> people s ∧ m.2 ∈ Club.id <$> clubs s).

(** The friend ids of a record that name a record of the input. *)
Definition loaded_friends (rs : list Row) (r : Row) : list Z :=
  filter (λ f, f ∈ ID <$> rs) (Friendships r).

(** The first column, in the order the code reads them, that the frame
    does not have. *)
Definition first_missing (df : DataFrame) : option string :=
  head (filter (λ c, c ∉ columns df) all_columns).

(** ** The Singleton demonstration ([module_3/Singleton.ipynb])

    The class attribute [Singleton._instance] holds a reference or [None].
    A reference is the position of its object in [objects], which keeps
    the [configuration] dict of every object whose [__init__] ran to its
    end.  A dict is the list of its items in insertion order, each key
    once; keys and values are strings here. *)

Module Singleton.

Record World := mkWorld {
  _instance : option nat;
  objects : list (list (string * string))
}.

(** Before the first call: the class is defined, no object exists. *)
Definition initial : World := mkWorld None [].

Inductive outcome (A : Type) :=
  | Returns (a : A)
  | RaisesException (message : string).
Arguments Returns {A} a.
Arguments RaisesException {A} message.

(** [d[key] = value]: an old key keeps its place, a new one goes last. *)
Fixpoint dict_set (key value : string) (d : list (string * string))
    : list (string * string) :=
  match d with
  | [] => [(key, value)]
  | (k, v) :: d =>
      if decide (k = key) then (k, value) :: d else (k, v) :: dict_set key value d
  end.

(** [d.get(key, None)] *)
Fixpoint dict_get (key : string) (d : list (string * string)) : option string :=
  match d with
  | [] => None
  | (k, v) :: d => if decide (k = key) then Some v else dict_get key d
  end.

(** [Singleton()]: a new object is made and [__init__] runs on it. *)
Definition new (w : World) : outcome (nat * World) :=
  match _instance w with
  | Some _ => RaisesException "This class is a singleton!"
  | None =>
      let self := length (objects w) in
      Returns (self, mkWorld (Some self) (objects w ++ [[]]))
  end.

Definition getInstance (w : World) : outcome (nat * World) :=
  match _instance w with
  | None =>
      match new w with
      | Returns (self, w) => Returns (self, mkWorld (Some self) (objects w))
      | RaisesException message => RaisesException message
      end
  | Some self => Returns (self, w)
  end.

Definition set_config (w : World) (self : nat) (key value : string) : World :=
  mkWorld (_instance w) (alter (dict_set key value) self (objects w)).

Definition get_config (w : World) (self : nat) (key : string) : option string :=
  d ← objects w !! self; dict_get key d.

(** One printed line of [display_config]. *)
Definition line (item : string * string) : string :=
  item.1 +:+ ": " +:+ item.2.

Definition display_config (w : World) (self : nat) : list string :=
  line <$> default [] (objects w !! self).

(** A run of [set_config] calls on one reference. *)
Definition set_configs (self : nat) (w : World) (items : list (string * string)) : World :=
  foldl (λ w item, set_config w self item.1 item.2) w items.

(** The registered reference, if any, names an object. *)
Definition wf (w : World) : Prop :=
  ∀ self, _instance w = Some self → (self < length (objects w))%nat.

End Singleton.

(** * Proofs *)

(** ** The scenario of the specification, run *)

Example scenario_loads : (load_frame empty_store (Ok scenario)).2 = Ok ().
Proof. vm_compute. reflexivity. Qed.

Example scenario_club : get_club_members scenario_store "Fitness Club" = [john; amanda].
Proof. vm_compute. reflexivity. Qed.

Example scenario_friends : get_friends_of_person scenario_store "John Rocha" = [amanda].
Proof. vm_compute. reflexivity. Qed.

Example scenario_admirers :
  get_persons_who_consider_them_friend scenario_store "John Rocha" = [ghost].
Proof. vm_compute. reflexivity. Qed.

(** ** Loops and cells *)

Section fold_lemmas.
Context {A B : Type}.

Lemma foldM_ok (f : A → B → result A) (g : A → B → A) (l : list B) (a : A) :
  (∀ a b, f a b = Ok (g a b)) → foldM f a l = Ok (foldl g a l).
Proof.
  intros Hfg. revert a. induction l as [|b l IH]; intros a; simpl; [done|].
  rewrite Hfg. simpl. apply IH.
Qed.

Lemma foldM_ok_on (f : A → B → result A) (g : A → B → A) (I : A → Prop)
    (l : list B) (a : A) :
  (∀ a b, I a → f a b = Ok (g a b) ∧ I (g a b)) → I a →
  foldM f a l = Ok (foldl g a l).
Proof.
  intros Hfg. revert a. induction l as [|b l IH]; intros a Ha; simpl; [done|].
  destruct (Hfg a b Ha) as [-> Hga]. simpl. by apply IH.
Qed.

Lemma foldM_cons_raise (f : A → B → result A) (a : A) (b : B) (l : list B) :
  raises (f a b) → raises (foldM f a (b :: l)).
Proof. simpl. by destruct (f a b). Qed.
End fold_lemmas.

Lemma getitem_ok {A} (df : DataFrame) (c : string) (cell : A) :
  c ∈ columns df → getitem df c cell = Ok cell.
Proof. intros Hc. unfold getitem. by rewrite decide_True. Qed.

Lemma getitem_raise {A} (df : DataFrame) (c : string) (cell : A) :
  c ∉ columns df → getitem df c cell = Raise (KeyError (KStr c)).
Proof. intros Hc. unfold getitem. by rewrite decide_False. Qed.

Lemma add_row_ok (df : DataFrame) (st : Pass1) (r : Row) :
  pass1_columns ⊆ columns df → add_row df st r = Ok (add_row_pure st r).
Proof.
  intros Hcols. unfold add_row.
  rewrite !getitem_ok; [done|..]; apply Hcols; unfold pass1_columns; set_solver.
Qed.

(** Case split on whether the frame has column [c]; in the branch where it
    has not, the next [row[c]] raises. *)
Ltac has_column df c :=
  destruct (decide (c ∈ columns df));
  [ rewrite (getitem_ok df c) by assumption; simpl
  | rewrite (getitem_raise df c) by assumption; try exact I ].

Lemma add_row_raise (df : DataFrame) (st : Pass1) (r : Row) :
  ¬ pass1_columns ⊆ columns df → raises (add_row df st r).
Proof.
  intros Hcols. unfold add_row.
  has_column df "ID"%string. has_column df "Name"%string.
  has_column df "Surname"%string. has_column df "Age"%string.
  has_column df "Gender"%string. has_column df "Location"%string.
  has_column df "Clubs"%string.
  destruct Hcols. intros c Hc. unfold pass1_columns in Hc.
  repeat (apply elem_of_cons in Hc; destruct Hc as [Hc|Hc]; [by subst|]).
  by apply elem_of_nil in Hc.
Qed.

(** ** Distinct descriptions *)

Lemma first_seen_snoc (l : list string) (d : string) :
  first_seen (l ++ [d]) =
  if decide (d ∈ first_seen l) then first_seen l else first_seen l ++ [d].
Proof. unfold first_seen. by rewrite foldl_app. Qed.

Lemma first_seen_elem (l : list string) (d : string) :
  d ∈ first_seen l ↔ d ∈ l.
Proof.
  induction l as [|x l IH] using rev_ind; [done|].
  rewrite first_seen_snoc. case_decide; set_solver.
Qed.

Lemma first_seen_NoDup (l : list string) : NoDup (first_seen l).
Proof.
  induction l as [|x l IH] using rev_ind; [constructor|].
  rewrite first_seen_snoc. case_decide; [done|].
  apply NoDup_app. split_and!; [done|set_solver|apply NoDup_singleton].
Qed.

(** ** The first loop *)

Lemma join_club_people (person : Person.t) (st : Pass1) (d : string) :
  new_people (pending (join_club person st d)) = new_people (pending st)
  ∧ new_friends (pending (join_club person st d)) = new_friends (pending st)
  ∧ people_dict (join_club person st d) = people_dict st.
Proof. unfold join_club. by destruct (clubs_dict st !! d). Qed.

Lemma join_clubs_people (person : Person.t) (cl : list string) (st : Pass1) :
  new_people (pending (foldl (join_club person) st cl)) = new_people (pending st)
  ∧ new_friends (pending (foldl (join_club person) st cl)) = new_friends (pending st)
  ∧ people_dict (foldl (join_club person) st cl) = people_dict st.
Proof.
  revert st. induction cl as [|d cl IH]; intros st; simpl; [done|].
  destruct (IH (join_club person st d)) as (-> & -> & ->).
  apply join_club_people.
Qed.

Lemma join_club_inv (person : Person.t) (ds : list (Z * string)) (st : Pass1) (d : string) :
  clubs_inv ds st →
  clubs_inv (ds ++ [(Person.id person, d)]) (join_club person st d).
Proof.
  intros [Hcs Hdict Hms]. unfold join_club.
  destruct (clubs_dict st !! d) as [h|] eqn:Hd.
  - (* the club is in the dictionary *)
    apply Hdict in Hd as Hh.
    assert (d ∈ first_seen ds.*2) as Hin.
    { rewrite <-Hcs. by eapply list_elem_of_lookup_2. }
    split; simpl.
    + rewrite fmap_app. simpl. rewrite first_seen_snoc, decide_True by done. done.
    + done.
    + apply Forall2_app; [done|]. by repeat constructor.
  - (* first time the description is seen *)
    assert (d ∉ first_seen ds.*2) as Hnin.
    { rewrite <-Hcs. intros [h Hh]%list_elem_of_lookup_1.
      apply Hdict in Hh. congruence. }
    split; simpl.
    + rewrite fmap_app. simpl. rewrite first_seen_snoc, decide_False by done.
      by rewrite Hcs.
    + intros d' h. destruct (decide (d = d')) as [<-|Hne].
      * rewrite lookup_insert_eq. split.
        -- intros [= <-]. by rewrite list_lookup_middle.
        -- intros Hh. f_equal.
           destruct (decide (h < length (new_clubs (pending st)))%nat) as [Hlt|Hge].
           ++ rewrite lookup_app_l in Hh by done. apply Hdict in Hh. congruence.
           ++ apply lookup_lt_Some in Hh. rewrite length_app in Hh. simpl in Hh. lia.
      * rewrite lookup_insert_ne by done. rewrite Hdict. split.
        -- intros Hh. by apply lookup_app_l_Some.
        -- intros Hh. apply lookup_app_Some in Hh as [Hh|[_ Hh]]; [done|].
           apply list_lookup_singleton_Some in Hh as [_ ?]. done.
    + apply Forall2_app.
      * eapply Forall2_impl; [done|]. intros m x [? ?]. split; [done|].
        by apply lookup_app_l_Some.
      * repeat constructor. simpl. by rewrite list_lookup_middle.
Qed.

Lemma join_clubs_inv (person : Person.t) (cl : list string) (ds : list (Z * string))
    (st : Pass1) :
  clubs_inv ds st →
  clubs_inv (ds ++ ((λ d, (Person.id person, d)) <$> cl)) (foldl (join_club person) st cl).
Proof.
  revert ds st. induction cl as [|d cl IH]; intros ds st Hinv; simpl.
  - by rewrite app_nil_r.
  - rewrite cons_middle, app_assoc. apply IH. by apply join_club_inv.
Qed.

Lemma membership_pairs_snoc (rs : list Row) (r : Row) :
  membership_pairs (rs ++ [r]) = membership_pairs rs ++ ((λ d, (ID r, d)) <$> Clubs r).
Proof. unfold membership_pairs. rewrite bind_app. simpl. by rewrite app_nil_r. Qed.

Lemma pass1_inv_init : pass1_inv [] pass1_init.
Proof.
  split; simpl; [done|done|done| |].
  - intros i. rewrite lookup_empty. split; [by intros [? ?]|by intros ?%elem_of_nil].
  - split; simpl; [done| |constructor].
    intros d h. by rewrite lookup_empty.
Qed.

Lemma add_row_pure_inv (rs : list Row) (st : Pass1) (r : Row) :
  pass1_inv rs st → pass1_inv (rs ++ [r]) (add_row_pure st r).
Proof.
  intros [Hp Hf Hid Hdom Hcl]. unfold add_row_pure.
  destruct (join_clubs_people (person_of_row r) (Clubs r) (add_person st (person_of_row r)))
    as (Hp' & Hf' & Hd').
  split.
  - rewrite Hp'. simpl. by rewrite Hp, fmap_app.
  - by rewrite Hf'.
  - rewrite Hd'. simpl. intros i p.
    destruct (decide (ID r = i)) as [<-|Hne].
    + rewrite lookup_insert_eq. by intros [= <-].
    + rewrite lookup_insert_ne by done. apply Hid.
  - rewrite Hd'. simpl. intros i. rewrite fmap_app, elem_of_app. simpl.
    rewrite list_elem_of_singleton.
    destruct (decide (ID r = i)) as [<-|Hne].
    + rewrite lookup_insert_eq. split; [by right|by eexists].
    + rewrite lookup_insert_ne by done. rewrite Hdom. naive_solver.
  - rewrite membership_pairs_snoc.
    apply (join_clubs_inv (person_of_row r)).
    destruct Hcl as [H1 H2 H3]. by split.
Qed.

Lemma pass1_pure_inv (rs : list Row) : pass1_inv rs (foldl add_row_pure pass1_init rs).
Proof.
  induction rs as [|r rs IH] using rev_ind; [apply pass1_inv_init|].
  rewrite foldl_app. simpl. by apply add_row_pure_inv.
Qed.

Lemma pass1_ok (df : DataFrame) :
  pass1_columns ⊆ columns df →
  foldM (add_row df) pass1_init (rows df) = Ok (foldl add_row_pure pass1_init (rows df)).
Proof. intros Hcols. apply foldM_ok. intros st r. by apply add_row_ok. Qed.

Lemma pass1_raise (df : DataFrame) :
  ¬ pass1_columns ⊆ columns df → rows df ≠ [] →
  raises (foldM (add_row df) pass1_init (rows df)).
Proof.
  intros Hcols Hrows. destruct (rows df) as [|r rs]; [done|].
  apply foldM_cons_raise. by apply add_row_raise.
Qed.

(** ** The second loop *)

Lemma befriend_all (rs : list Row) (pd : gmap Z Person.t) (person : Person.t)
    (fl : list Z) (p : Pending) :
  (∀ i q, pd !! i = Some q → Person.id q = i) →
  (∀ i, is_Some (pd !! i) ↔ i ∈ ID <$> rs) →
  foldl (befriend pd person) p fl =
  mkPending (new_people p) (new_clubs p) (new_members p)
            (new_friends p ++
             ((λ f, (Person.id person, f)) <$> filter (λ f, f ∈ ID <$> rs) fl)).
Proof.
  intros Hid Hdom. revert p. induction fl as [|f fl IH]; intros p; simpl.
  - rewrite app_nil_r. by destruct p.
  - rewrite IH. unfold befriend. rewrite filter_cons.
    destruct (pd !! f) as [q|] eqn:Hf.
    + rewrite decide_True by (apply Hdom; by eexists).
      simpl. apply Hid in Hf as ->. by rewrite <-app_assoc.
    + rewrite decide_False; [done|].
      intros Hin%Hdom. rewrite Hf in Hin. by destruct Hin.
Qed.

Lemma wire_row_ok (df : DataFrame) (rs : list Row) (pd : gmap Z Person.t)
    (p : Pending) (r : Row) :
  all_columns ⊆ columns df →
  (∀ i q, pd !! i = Some q → Person.id q = i) →
  (∀ i, is_Some (pd !! i) ↔ i ∈ ID <$> rs) →
  r ∈ rs →
  wire_row df pd p r = Ok (wire_row_pure rs p r).
Proof.
  intros Hcols Hid Hdom Hr. unfold wire_row.
  rewrite (getitem_ok df "ID") by (apply Hcols; unfold all_columns; set_solver).
  rewrite (getitem_ok df "Friendships") by (apply Hcols; unfold all_columns; set_solver).
  simpl.
  assert (is_Some (pd !! ID r)) as [person Hperson].
  { apply Hdom. by apply list_elem_of_fmap_2. }
  rewrite Hperson. simpl.
  rewrite (befriend_all rs) by done.
  apply Hid in Hperson as ->. done.
Qed.

Lemma wire_row_raise (df : DataFrame) (pd : gmap Z Person.t) (p : Pending) (r : Row) :
  "Friendships"%string ∉ columns df → raises (wire_row df pd p r).
Proof.
  intros Hcol. unfold wire_row.
  has_column df "ID"%string.
  destruct (pd !! ID r); simpl; [|done].
  by rewrite getitem_raise.
Qed.

Lemma pass2_ok (df : DataFrame) (pd : gmap Z Person.t) :
  all_columns ⊆ columns df →
  (∀ i q, pd !! i = Some q → Person.id q = i) →
  (∀ i, is_Some (pd !! i) ↔ i ∈ ID <$> rows df) →
  foldM (wire_row df pd) nothing_pending (rows df)
  = Ok (mkPending [] [] [] (friend_pairs (rows df))).
Proof.
  intros Hcols Hid Hdom.
  assert (∀ l p, l ⊆ rows df →
    foldM (wire_row df pd) p l = Ok (foldl (wire_row_pure (rows df)) p l)) as Hfold.
  { induction l as [|r l IH]; intros p Hl; simpl; [done|].
    rewrite (wire_row_ok df (rows df)) by (done || set_solver). simpl.
    apply IH. set_solver. }
  rewrite Hfold by done. f_equal.
  assert (∀ l p, foldl (wire_row_pure (rows df)) p l =
    mkPending (new_people p) (new_clubs p) (new_members p)
      (new_friends p ++ (r ← l; (λ f, (ID r, f)) <$> filter (λ f, f ∈ ID <$> rows df) (Friendships r))))
    as Hclosed.
  { induction l as [|r l IH]; intros p; simpl.
    - rewrite app_nil_r. by destruct p.
    - rewrite IH. simpl. by rewrite <-app_assoc. }
  by rewrite Hclosed.
Qed.

(** ** The two commits *)

Lemma club_ids_NoDup (base : Z) (cs : list string) :
  NoDup (Club.id <$> imap (club_row base) cs).
Proof.
  apply NoDup_alt. intros i j x.
  rewrite !list_lookup_fmap, !list_lookup_imap.
  destruct (cs !! i), (cs !! j); simpl; try done.
  intros [= <-] [= Hj]. lia.
Qed.

(** The persons go in exactly when each is bindable and no id is taken,
    in the table or by an earlier one of them. *)
Lemma insert_people_ok (table new : list Person.t) :
  Forall bindable new → NoDup (Person.id <$> new) →
  (∀ p, p ∈ new → Person.id p ∉ Person.id <$> table) →
  insert_people table new = Ok (table ++ new).
Proof.
  revert table. induction new as [|p new IH]; intros table Hb Hnd Hfresh; simpl.
  { by rewrite app_nil_r. }
  apply Forall_cons in Hb as [Hp Hb]. rewrite fmap_cons in Hnd.
  apply NoDup_cons in Hnd as [Hnotin Hnd].
  rewrite decide_True by done. rewrite decide_False by (apply Hfresh; left).
  rewrite IH; [by rewrite <-app_assoc|done..|].
  intros q Hq. rewrite fmap_app, elem_of_app. intros [Hin|Hin].
  - by apply (Hfresh q); [right|].
  - apply list_elem_of_singleton in Hin. apply Hnotin. rewrite <-Hin.
    by apply list_elem_of_fmap_2.
Qed.

Lemma insert_people_inv (table new table' : list Person.t) :
  insert_people table new = Ok table' →
  table' = table ++ new ∧ Forall bindable new ∧ NoDup (Person.id <$> new)
  ∧ ∀ p, p ∈ new → Person.id p ∉ Person.id <$> table.
Proof.
  revert table. induction new as [|p new IH]; intros table; simpl.
  { intros [= <-]. rewrite app_nil_r. split_and!; [done|constructor..|].
    by intros p ?%elem_of_nil. }
  destruct (decide (bindable p)) as [Hp|]; [|done].
  destruct (decide (Person.id p ∈ Person.id <$> table)) as [|Hfresh]; [done|].
  intros (-> & Hb & Hnd & Hnew)%IH. split_and!.
  - by rewrite <-app_assoc.
  - by constructor.
  - change (NoDup (Person.id p :: (Person.id <$> new))). apply NoDup_cons. split; [|done].
    intros (q & Heq & Hq)%list_elem_of_fmap. apply (Hnew q Hq).
    rewrite fmap_app, elem_of_app. right. rewrite <-Heq. by left.
  - intros q [->|Hq]%elem_of_cons; [done|].
    intros Hin. apply (Hnew q Hq). rewrite fmap_app, elem_of_app. by left.
Qed.

(** With every person bindable the only error is a taken id; with no id
    taken the only error is a value that does not fit. *)
Lemma insert_people_error (table new : list Person.t) (e : exn) :
  insert_people table new = Raise e →
  (Forall bindable new → e = IntegrityError)
  ∧ (NoDup (Person.id <$> new) →
     (∀ p, p ∈ new → Person.id p ∉ Person.id <$> table) → e = OverflowError).
Proof.
  revert table. induction new as [|p new IH]; intros table; simpl; [done|].
  destruct (decide (bindable p)) as [Hp|Hp].
  - destruct (decide (Person.id p ∈ Person.id <$> table)) as [Htaken|Hfresh].
    + intros [= <-]. split; [done|]. intros _ Hnew. destruct (Hnew p); [left|done].
    + intros [Hint Hov]%IH. split.
      * intros [_ Hb]%Forall_cons. by apply Hint.
      * intros [Hnotin Hnd]%NoDup_cons Hnew. apply Hov; [done|].
        intros q Hq. rewrite fmap_app, elem_of_app. intros [Hin|Hin].
        -- by apply (Hnew q); [right|].
        -- apply list_elem_of_singleton in Hin. apply Hnotin. rewrite <-Hin.
           by apply list_elem_of_fmap_2.
  - intros [= <-]. split; [|done]. by intros [? _]%Forall_cons.
Qed.

Lemma commit_empty (p : Pending) :
  commit empty_store p =
  match insert_people [] (new_people p) with
  | Ok people' =>
      if decide (NoDup (member_row 0 <$> new_members p) ∧ NoDup (new_friends p))
      then Ok (mkStore people' (imap (club_row 0) (new_clubs p)) (new_friends p)
                       (member_row 0 <$> new_members p))
      else Raise IntegrityError
  | Raise e => Raise e
  end.
Proof.
  unfold commit. simpl. destruct (insert_people [] (new_people p)); [|done]. simpl.
  apply decide_ext. pose proof (club_ids_NoDup 0 (new_clubs p)). naive_solver.
Qed.

Lemma commit_friends (db : Store) (fp : list (Z * Z)) :
  NoDup (Person.id <$> people db) → NoDup (Club.id <$> clubs db) →
  NoDup (club_members db) → friendships db = [] →
  commit db (mkPending [] [] [] fp) =
  if decide (NoDup fp)
  then Ok (mkStore (people db) (clubs db) fp (club_members db))
  else Raise IntegrityError.
Proof.
  intros Hp Hc Hm Hf. unfold commit. simpl. rewrite !app_nil_r, Hf. simpl.
  destruct (decide (NoDup fp)).
  - by rewrite decide_True.
  - rewrite decide_False; [done|]. naive_solver.
Qed.

(** ** The store a load leaves *)

Lemma index_of_lookup (cs : list string) (h : nat) (d : string) :
  NoDup cs → cs !! h = Some d → index_of d cs = h.
Proof.
  revert h. induction cs as [|c cs IH]; intros h Hnd Hh; [done|].
  apply NoDup_cons in Hnd as [Hc Hnd]. simpl.
  destruct h as [|h]; simpl in Hh.
  - injection Hh as ->. by rewrite decide_True.
  - rewrite decide_False.
    + f_equal. by apply IH.
    + intros ->. apply Hc. by eapply list_elem_of_lookup_2.
Qed.

Lemma lookup_index_of (cs : list string) (d : string) :
  d ∈ cs → cs !! index_of d cs = Some d.
Proof.
  induction cs as [|c cs IH]; intros Hd; [by apply elem_of_nil in Hd|].
  simpl. case_decide as Hc; simpl; [by subst|].
  apply IH. apply elem_of_cons in Hd as [->|Hd]; done.
Qed.

Lemma membership_pairs_clubs (rs : list Row) : (membership_pairs rs).*2 = all_clubs rs.
Proof.
  induction rs as [|r rs IH] using rev_ind; [done|].
  rewrite membership_pairs_snoc, fmap_app, IH. unfold all_clubs.
  rewrite bind_app. simpl. rewrite app_nil_r. f_equal.
  rewrite <-list_fmap_compose. apply list_fmap_id.
Qed.

Lemma person_ids (rs : list Row) : Person.id <$> (person_of_row <$> rs) = ID <$> rs.
Proof. by rewrite <-list_fmap_compose. Qed.

Lemma pass1_members (rs : list Row) :
  member_row 0 <$> new_members (pending (foldl add_row_pure pass1_init rs)) = member_table rs.
Proof.
  destruct (pass1_pure_inv rs) as [_ _ _ _ [Hcs _ Hms]].
  rewrite membership_pairs_clubs in Hcs. unfold member_table, club_id_of.
  rewrite Hcs in Hms. induction Hms as [|m x ms xs [Hm Hx] _ IH]; [done|].
  simpl. f_equal; [|done].
  unfold member_row. simpl. rewrite Hm.
  by rewrite (index_of_lookup _ _ _ (first_seen_NoDup _) Hx).
Qed.

Lemma member_table_NoDup (rs : list Row) :
  NoDup (member_table rs) ↔ NoDup (membership_pairs rs).
Proof.
  split; [apply NoDup_fmap_1|].
  apply NoDup_fmap_2_strong. intros [p d] [p' d'] Hx Hy. simpl. intros [= -> Hd].
  f_equal. unfold club_id_of in Hd.
  assert (∀ p d, (p, d) ∈ membership_pairs rs → d ∈ first_seen (all_clubs rs)) as Hin.
  { intros q c Hqc. apply first_seen_elem. rewrite <-membership_pairs_clubs.
    by apply (list_elem_of_fmap_2 snd) in Hqc. }
  apply Hin, lookup_index_of in Hx. apply Hin, lookup_index_of in Hy.
  assert (index_of d (first_seen (all_clubs rs)) = index_of d' (first_seen (all_clubs rs)))
    as Heq by lia.
  rewrite Heq in Hx. congruence.
Qed.

Lemma insert_people_error_kind (table new : list Person.t) (e : exn) :
  insert_people table new = Raise e → e = IntegrityError ∨ e = OverflowError.
Proof.
  revert table. induction new as [|p new IH]; intros table; simpl; [done|].
  repeat case_decide; [by intros [= <-]; left|apply IH|by intros [= <-]; right].
Qed.

Lemma first_commit_error_kind (rs : list Row) :
  first_commit_error rs = IntegrityError ∨ first_commit_error rs = OverflowError.
Proof.
  unfold first_commit_error.
  destruct (insert_people [] (person_of_row <$> rs)) as [|e] eqn:Hins; [by left|].
  by apply insert_people_error_kind in Hins.
Qed.

Lemma persons_bindable (rs : list Row) :
  Forall bindable (person_of_row <$> rs) ↔ Forall row_bindable rs.
Proof. by rewrite Forall_fmap. Qed.

Lemma first_commit_error_keys (rs : list Row) :
  Forall row_bindable rs → first_commit_error rs = IntegrityError.
Proof.
  intros Hb. unfold first_commit_error.
  destruct (insert_people [] (person_of_row <$> rs)) as [|e] eqn:Hins; [done|].
  apply insert_people_error in Hins as [Hint _]. by apply Hint, persons_bindable.
Qed.

Lemma first_commit_error_range (rs : list Row) :
  NoDup (ID <$> rs) → ¬ Forall row_bindable rs → first_commit_error rs = OverflowError.
Proof.
  intros Hids Hb. unfold first_commit_error.
  destruct (insert_people [] (person_of_row <$> rs)) as [ps|e] eqn:Hins.
  - apply insert_people_inv in Hins as (_ & Hb' & _). by apply persons_bindable in Hb'.
  - apply insert_people_error in Hins as [_ Hov]. apply Hov.
    + by rewrite person_ids.
    + by intros p _ ?%elem_of_nil.
Qed.

Lemma commit_pass1 (rs : list Row) :
  commit empty_store (pending (foldl add_row_pure pass1_init rs)) =
  if decide (first_commit_ok rs)
  then Ok (half_loaded rs)
  else Raise (first_commit_error rs).
Proof.
  rewrite commit_empty. unfold first_commit_error.
  destruct (pass1_pure_inv rs) as [Hp Hf _ _ [Hcs _ _]].
  rewrite membership_pairs_clubs in Hcs.
  pose proof (pass1_members rs) as Hms. pose proof (member_table_NoDup rs) as Hnd.
  pose proof (person_ids rs) as Hids.
  destruct (foldl add_row_pure pass1_init rs) as [[ps cs ms fs] cd pd].
  simpl in *. subst ps fs cs. rewrite Hms.
  destruct (insert_people [] (person_of_row <$> rs)) as [ps|e] eqn:Hins.
  - apply insert_people_inv in Hins as (-> & Hb%persons_bindable & Hnodup & _).
    rewrite Hids in Hnodup. simpl.
    destruct (decide (NoDup (membership_pairs rs))) as [Hm|Hm].
    + rewrite decide_True by (split; [by apply Hnd|constructor]).
      by rewrite decide_True.
    + rewrite decide_False by (intros [?%Hnd _]; done).
      rewrite decide_False; [done|]. by intros (_ & _ & ?).
  - rewrite decide_False; [done|]. intros (Hb & Hnodup & _).
    rewrite insert_people_ok in Hins; [done|by apply persons_bindable| |].
    + by rewrite Hids.
    + by intros p _ ?%elem_of_nil.
Qed.

(** A frame with all its columns: the load ends in one of three ways. *)
Lemma load_frame_spec (df : DataFrame) :
  all_columns ⊆ columns df →
  load_frame empty_store (Ok df) =
  if decide (first_commit_ok (rows df))
  then if decide (NoDup (friend_pairs (rows df)))
       then (loaded (rows df), Ok ())
       else (half_loaded (rows df), Raise IntegrityError)
  else (empty_store, Raise (first_commit_error (rows df))).
Proof.
  intros Hcols. unfold load_frame.
  rewrite pass1_ok by (unfold all_columns, pass1_columns in *; set_solver).
  rewrite commit_pass1.
  destruct (pass1_pure_inv (rows df)) as [_ _ Hid Hdom _].
  destruct (decide (first_commit_ok (rows df))) as [(Hb & Hids & Hms)|Hno]; [|done].
  rewrite pass2_ok by done.
  rewrite commit_friends; simpl.
  - by destruct (decide (NoDup (friend_pairs (rows df)))).
  - by rewrite person_ids.
  - apply club_ids_NoDup.
  - by apply member_table_NoDup.
  - done.
Qed.

(** ** Frames that lack a column *)

Lemma delete_all_empty (s : Store) : delete_all s = empty_store.
Proof. reflexivity. Qed.

Lemma load_frame_no_rows (df : DataFrame) :
  rows df = [] → load_frame empty_store (Ok df) = (empty_store, Ok ()).
Proof. intros Hrows. unfold load_frame. rewrite Hrows. reflexivity. Qed.

Lemma load_frame_pass1_missing (df : DataFrame) :
  ¬ pass1_columns ⊆ columns df → rows df ≠ [] →
  ∃ e, load_frame empty_store (Ok df) = (empty_store, Raise e).
Proof.
  intros Hcols Hrows. unfold load_frame.
  pose proof (pass1_raise df Hcols Hrows) as Hraise.
  destruct (foldM (add_row df) pass1_init (rows df)) as [st|e]; [done|].
  by exists e.
Qed.

Lemma load_frame_no_friendships (df : DataFrame) :
  pass1_columns ⊆ columns df → "Friendships"%string ∉ columns df → rows df ≠ [] →
  ∃ e, load_frame empty_store (Ok df) =
  if decide (first_commit_ok (rows df))
  then (half_loaded (rows df), Raise e)
  else (empty_store, Raise e).
Proof.
  intros Hcols Hfr Hrows. unfold load_frame.
  rewrite pass1_ok by done. rewrite commit_pass1.
  destruct (decide (first_commit_ok (rows df))); [|by eexists].
  destruct (rows df) as [|r rs] eqn:Hr; [done|].
  pose proof (foldM_cons_raise
    (wire_row df (people_dict (foldl add_row_pure pass1_init (r :: rs))))
    nothing_pending r rs (wire_row_raise _ _ _ _ Hfr)) as Hraise.
  destruct (foldM _ nothing_pending (r :: rs)) as [p|e]; [done|].
  by exists e.
Qed.

Lemma all_columns_split (df : DataFrame) :
  all_columns ⊆ columns df ↔
  pass1_columns ⊆ columns df ∧ "Friendships"%string ∈ columns df.
Proof. unfold all_columns, pass1_columns. set_solver. Qed.

(** A load that ends well has read well-formed rows and leaves [loaded]. *)
Lemma load_frame_success (df : DataFrame) (s : Store) :
  load_frame empty_store (Ok df) = (s, Ok ()) →
  s = loaded (rows df)
  ∧ NoDup (ID <$> rows df) ∧ NoDup (membership_pairs (rows df))
  ∧ NoDup (friend_pairs (rows df)).
Proof.
  intros Hload.
  destruct (decide (rows df = [])) as [Hrows|Hrows].
  { rewrite load_frame_no_rows in Hload by done. injection Hload as <-.
    rewrite Hrows. split_and!; [done|constructor..]. }
  destruct (decide (pass1_columns ⊆ columns df)) as [Hp1|Hp1].
  2:{ destruct (load_frame_pass1_missing df Hp1 Hrows) as [e He]. congruence. }
  destruct (decide ("Friendships"%string ∈ columns df)) as [Hfr|Hfr].
  2:{ destruct (load_frame_no_friendships df Hp1 Hfr Hrows) as [e He].
      rewrite He in Hload. by case_decide. }
  rewrite load_frame_spec in Hload by (by apply all_columns_split).
  repeat case_decide; try done.
  injection Hload as <-. unfold first_commit_ok in *. naive_solver.
Qed.

(** Whenever a load raises, the store is empty or holds the first half. *)
Lemma load_frame_failure (df : DataFrame) (s : Store) (e : exn) :
  load_frame empty_store (Ok df) = (s, Raise e) →
  s = empty_store ∨ s = half_loaded (rows df).
Proof.
  intros Hload.
  destruct (decide (rows df = [])) as [Hrows|Hrows].
  { by rewrite load_frame_no_rows in Hload. }
  destruct (decide (pass1_columns ⊆ columns df)) as [Hp1|Hp1].
  2:{ destruct (load_frame_pass1_missing df Hp1 Hrows) as [e' He]. left. congruence. }
  destruct (decide ("Friendships"%string ∈ columns df)) as [Hfr|Hfr].
  2:{ destruct (load_frame_no_friendships df Hp1 Hfr Hrows) as [e' He].
      rewrite He in Hload. case_decide; [right|left]; congruence. }
  rewrite load_frame_spec in Hload by (by apply all_columns_split).
  repeat case_decide; try done; [right|left]; congruence.
Qed.

Lemma load_frame_missing (df : DataFrame) :
  ¬ all_columns ⊆ columns df → rows df ≠ [] →
  raises (load_frame empty_store (Ok df)).2.
Proof.
  intros Hcols Hrows.
  destruct (decide (pass1_columns ⊆ columns df)) as [Hp1|Hp1].
  - assert ("Friendships"%string ∉ columns df) as Hfr.
    { intros Hfr. apply Hcols. by apply all_columns_split. }
    destruct (load_frame_no_friendships df Hp1 Hfr Hrows) as [e ->].
    by case_decide.
  - by destruct (load_frame_pass1_missing df Hp1 Hrows) as [e ->].
Qed.

(** ** The queries on a loaded store *)

Section filters.
Context {A : Type} (P : A → Prop) `{!∀ x, Decision (P x)}.

Lemma filter_none (l : list A) : (∀ x, x ∈ l → ¬ P x) → filter P l = [].
Proof.
  induction l as [|x l IH]; intros Hl; [done|].
  rewrite filter_cons_False by (apply Hl; left).
  apply IH. intros y Hy. apply Hl. by right.
Qed.

Lemma head_filter_none (l : list A) : (∀ x, x ∈ l → ¬ P x) → head (filter P l) = None.
Proof. intros Hl. by rewrite filter_none. Qed.
End filters.

(** The join with [people] on an id finds the person of that record. *)
Lemma person_with_id (rs : list Row) (r : Row) :
  NoDup (ID <$> rs) → r ∈ rs →
  filter (λ q, Person.id q = ID r) (person_of_row <$> rs) = [person_of_row r].
Proof.
  induction rs as [|r' l IH]; intros Hnd Hr; [by apply elem_of_nil in Hr|].
  rewrite fmap_cons in Hnd. apply NoDup_cons in Hnd as [Hnotin Hnd].
  rewrite fmap_cons. apply elem_of_cons in Hr as [->|Hr].
  - rewrite filter_cons_True by done. f_equal.
    apply filter_none. intros q [r [-> Hr]]%list_elem_of_fmap_1 Heq. simpl in Heq.
    apply Hnotin. rewrite <-Heq. by apply list_elem_of_fmap_2.
  - rewrite filter_cons_False; [by apply IH|].
    simpl. intros Heq. apply Hnotin. rewrite Heq. by apply list_elem_of_fmap_2.
Qed.

Lemma person_with_unknown_id (rs : list Row) (i : Z) :
  i ∉ ID <$> rs → filter (λ q, Person.id q = i) (person_of_row <$> rs) = [].
Proof.
  intros Hi. apply filter_none. intros q [r [-> Hr]]%list_elem_of_fmap_1 Heq.
  simpl in Heq. apply Hi. rewrite <-Heq. by apply list_elem_of_fmap_2.
Qed.

(** Looking a club up by description. *)
Lemma find_in_club_rows (f : nat → string → Club.t) (cs : list string) (d : string) :
  (∀ i c, Club.description (f i c) = c) →
  head (filter (λ c, Club.description c = d) (imap f cs)) =
  if decide (d ∈ cs) then Some (f (index_of d cs) d) else None.
Proof.
  revert f. induction cs as [|c cs IH]; intros f Hf; [done|].
  simpl. destruct (decide (c = d)) as [->|Hne].
  - rewrite filter_cons_True by apply Hf. simpl.
    by rewrite decide_True by left.
  - rewrite filter_cons_False by (by rewrite Hf).
    rewrite IH by (intros; apply Hf). simpl.
    apply decide_ext. set_solver.
Qed.

Lemma find_club_loaded (rs : list Row) (d : string) :
  find_club (loaded rs) d =
  if decide (d ∈ all_clubs rs) then Some (Club.mk (club_id_of rs d) d) else None.
Proof.
  unfold find_club. simpl. unfold club_table.
  rewrite find_in_club_rows by done.
  destruct (decide (d ∈ all_clubs rs)) as [Hd|Hd].
  - by rewrite decide_True by (by apply first_seen_elem).
  - by rewrite decide_False by (by rewrite first_seen_elem).
Qed.

Lemma club_id_of_inj (rs : list Row) (d d' : string) :
  d ∈ all_clubs rs → d' ∈ all_clubs rs →
  club_id_of rs d = club_id_of rs d' → d = d'.
Proof.
  intros Hd%first_seen_elem%lookup_index_of Hd'%first_seen_elem%lookup_index_of Heq.
  unfold club_id_of in Heq.
  assert (index_of d (first_seen (all_clubs rs)) = index_of d' (first_seen (all_clubs rs)))
    as Hi by lia.
  rewrite Hi in Hd. congruence.
Qed.

Lemma filter_one (l : list string) (d : string) :
  NoDup l → filter (λ x, x = d) l = if decide (d ∈ l) then [d] else [].
Proof.
  induction l as [|x l IH]; intros Hnd; [done|].
  apply NoDup_cons in Hnd as [Hx Hnd].
  destruct (decide (x = d)) as [->|Hne].
  - rewrite filter_cons_True by done. rewrite decide_True by left.
    f_equal. apply filter_none. by intros y Hy ->.
  - rewrite filter_cons_False by done. rewrite IH by done.
    apply decide_ext. set_solver.
Qed.

(** The members of a club: one person per record listing the description,
    in the order of the membership rows. *)
Lemma members_join (rs0 rs : list Row) (d : string) :
  NoDup (ID <$> rs0) → rs ⊆ rs0 → NoDup (membership_pairs rs) →
  (x ← filter (λ x, x.2 = d) (membership_pairs rs);
   filter (λ q, Person.id q = x.1) (person_of_row <$> rs0))
  = person_of_row <$> filter (λ r, d ∈ Clubs r) rs.
Proof.
  intros Hids. induction rs as [|r rs IH]; intros Hsub Hnd; [done|].
  unfold membership_pairs in Hnd |- *. rewrite bind_cons in Hnd |- *.
  apply NoDup_app in Hnd as (Hcl%NoDup_fmap_1 & _ & Hnd).
  rewrite filter_app, bind_app.
  fold (membership_pairs rs). rewrite IH by (done || set_solver).
  assert (filter (λ x : Z * string, x.2 = d) ((λ c, (ID r, c)) <$> Clubs r)
          = (λ c, (ID r, c)) <$> filter (λ c, c = d) (Clubs r)) as ->.
  { clear. induction (Clubs r) as [|c cl IHc]; [done|].
    rewrite fmap_cons. destruct (decide (c = d)) as [->|Hne].
    - rewrite !filter_cons_True by done. by rewrite fmap_cons, IHc.
    - by rewrite !filter_cons_False by done. }
  rewrite filter_one by done.
  destruct (decide (d ∈ Clubs r)) as [Hd|Hd].
  - rewrite filter_cons_True by done. simpl.
    rewrite person_with_id by (done || set_solver). done.
  - by rewrite filter_cons_False by done.
Qed.

Lemma member_rows_of_club (rs : list Row) (d : string) :
  d ∈ all_clubs rs →
  filter (λ m, m.2 = club_id_of rs d) (member_table rs)
  = (λ x, (x.1, club_id_of rs x.2)) <$> filter (λ x, x.2 = d) (membership_pairs rs).
Proof.
  intros Hd. unfold member_table.
  assert (∀ x, x ∈ membership_pairs rs → x.2 ∈ all_clubs rs) as Hin.
  { intros x Hx. rewrite <-membership_pairs_clubs. by apply list_elem_of_fmap_2. }
  induction (membership_pairs rs) as [|x l IH]; [done|].
  rewrite fmap_cons. destruct (decide (x.2 = d)) as [Hx|Hx].
  - rewrite !filter_cons_True by (simpl; congruence).
    rewrite fmap_cons, IH; [done|]. intros y Hy. apply Hin. by right.
  - rewrite !filter_cons_False; [apply IH; intros y Hy; apply Hin; by right|done|].
    simpl. intros Heq. apply Hx. apply (club_id_of_inj rs); [apply Hin; left|done..].
Qed.

Lemma get_club_members_loaded (rs : list Row) (d : string) :
  NoDup (ID <$> rs) → NoDup (membership_pairs rs) → d ∈ all_clubs rs →
  get_club_members (loaded rs) d = person_of_row <$> filter (λ r, d ∈ Clubs r) rs.
Proof.
  intros Hids Hms Hd. unfold get_club_members.
  rewrite find_club_loaded, decide_True by done.
  unfold Club_members. simpl. rewrite member_rows_of_club by done.
  rewrite <-(members_join rs rs d) by done.
  induction (filter (λ x, x.2 = d) (membership_pairs rs)) as [|x l IH]; [done|].
  rewrite fmap_cons, !bind_cons. by rewrite IH.
Qed.

Lemma NoDup_fmap_eq {A B} (f : A → B) (l : list A) (x y : A) :
  NoDup (f <$> l) → x ∈ l → y ∈ l → f x = f y → x = y.
Proof.
  induction l as [|a l IH]; intros Hnd Hx Hy Heq; [by apply elem_of_nil in Hx|].
  rewrite fmap_cons in Hnd. apply NoDup_cons in Hnd as [Ha Hnd].
  apply elem_of_cons in Hx as [->|Hx]; apply elem_of_cons in Hy as [->|Hy]; try done.
  - destruct Ha. rewrite Heq. by apply list_elem_of_fmap_2.
  - destruct Ha. rewrite <-Heq. by apply list_elem_of_fmap_2.
  - by apply IH.
Qed.

Lemma member_ids_of_club (rs : list Row) (d : string) :
  NoDup (membership_pairs rs) →
  ID <$> filter (λ r, d ∈ Clubs r) rs = (filter (λ x, x.2 = d) (membership_pairs rs)).*1.
Proof.
  induction rs as [|r rs IH]; intros Hnd; [done|].
  unfold membership_pairs in Hnd |- *. rewrite bind_cons in Hnd |- *.
  apply NoDup_app in Hnd as (Hcl%NoDup_fmap_1 & _ & Hnd).
  rewrite filter_app, fmap_app. fold (membership_pairs rs). rewrite <-IH by done.
  assert ((filter (λ x : Z * string, x.2 = d) ((λ c, (ID r, c)) <$> Clubs r)).*1
          = if decide (d ∈ Clubs r) then [ID r] else []) as ->.
  { clear -Hcl. induction (Clubs r) as [|c cl IHc]; [done|].
    apply NoDup_cons in Hcl as [Hc Hcl]. rewrite fmap_cons.
    destruct (decide (c = d)) as [->|Hne].
    - rewrite filter_cons_True by done. rewrite fmap_cons, IHc by done.
      rewrite decide_False by done. by rewrite decide_True by left.
    - rewrite filter_cons_False by done. rewrite IHc by done.
      apply decide_ext. set_solver. }
  destruct (decide (d ∈ Clubs r)).
  - by rewrite filter_cons_True by done.
  - by rewrite filter_cons_False by done.
Qed.

Lemma load_data_from_csv_unfold (read_csv : Files) (session : Store) (csv_path : string) :
  load_data_from_csv read_csv session csv_path
  = load_frame empty_store (read_csv "members.csv"%string).
Proof. reflexivity. Qed.

(** ** Club ids follow first occurrences *)

Lemma index_of_app_elem (d : string) (l l' : list string) :
  d ∈ l → index_of d (l ++ l') = index_of d l.
Proof.
  induction l as [|x l IH]; intros Hd; [by apply elem_of_nil in Hd|].
  simpl. case_decide; [done|]. f_equal. apply IH. set_solver.
Qed.

Lemma index_of_app_fresh (d : string) (l : list string) :
  d ∉ l → index_of d (l ++ [d]) = length l.
Proof.
  induction l as [|x l IH]; intros Hd; simpl.
  - by rewrite decide_True.
  - rewrite decide_False by set_solver. f_equal. apply IH. set_solver.
Qed.

Lemma index_of_lt (d : string) (l : list string) :
  d ∈ l → (index_of d l < length l)%nat.
Proof.
  induction l as [|x l IH]; intros Hd; [by apply elem_of_nil in Hd|].
  simpl. case_decide; [lia|]. apply elem_of_cons in Hd as [->|Hd]; [done|].
  apply IH in Hd. lia.
Qed.

(** [first_seen] lists the elements by the position of their first
    occurrence. *)
Lemma first_seen_order (l : list string) (i j : nat) (d1 d2 : string) :
  first_seen l !! i = Some d1 → first_seen l !! j = Some d2 → (i < j)%nat →
  (index_of d1 l < index_of d2 l)%nat.
Proof.
  revert i j d1 d2. induction l as [|x l IH] using rev_ind; intros i j d1 d2; [done|].
  rewrite first_seen_snoc. case_decide as Hx.
  - intros H1 H2 Hlt.
    rewrite !index_of_app_elem
      by (apply first_seen_elem; by eapply list_elem_of_lookup_2).
    by eapply IH.
  - intros H1 H2 Hlt.
    apply lookup_app_Some in H2 as [H2|[Hlen H2]].
    + rewrite lookup_app_l in H1 by (apply lookup_lt_Some in H2; lia).
      rewrite !index_of_app_elem
        by (apply first_seen_elem; by eapply list_elem_of_lookup_2).
      by eapply IH.
    + apply list_lookup_singleton_Some in H2 as [Hj <-].
      rewrite lookup_app_l in H1 by lia.
      assert (d1 ∈ l) as Hd1 by (apply first_seen_elem; by eapply list_elem_of_lookup_2).
      rewrite index_of_app_elem by done.
      rewrite index_of_app_fresh by (by rewrite <-first_seen_elem).
      by apply index_of_lt.
Qed.

Lemma club_table_lookup (rs : list Row) (i : nat) (c : Club.t) :
  club_table rs !! i = Some c ↔
  first_seen (all_clubs rs) !! i = Some (Club.description c) ∧ Club.id c = 1 + Z.of_nat i.
Proof.
  unfold club_table. rewrite list_lookup_imap.
  destruct (first_seen (all_clubs rs) !! i) as [d|]; simpl.
  - unfold club_row. destruct c as [k d']. simpl. split.
    + intros [= <- <-]. split; [done|lia].
    + intros [[= <-] ->]. repeat f_equal.
  - split; [done|]. by intros [? _].
Qed.

Lemma club_table_descriptions (rs : list Row) :
  Club.description <$> club_table rs = first_seen (all_clubs rs).
Proof.
  apply list_eq. intros i. unfold club_table.
  rewrite list_lookup_fmap, list_lookup_imap.
  by destruct (first_seen (all_clubs rs) !! i).
Qed.

Lemma club_of_description (rs : list Row) (d : string) :
  d ∈ all_clubs rs → Club.mk (club_id_of rs d) d ∈ club_table rs.
Proof.
  intros Hd%first_seen_elem%lookup_index_of.
  apply list_elem_of_lookup. exists (index_of d (first_seen (all_clubs rs))).
  by apply club_table_lookup.
Qed.

Lemma head_filter_fmap {A B} (f : A → B) (P : B → Prop) `{!∀ y, Decision (P y)}
    (l : list A) :
  head (filter P (f <$> l)) = f <$> head (filter (λ x, P (f x)) l).
Proof.
  induction l as [|x l IH]; [done|].
  rewrite fmap_cons. destruct (decide (P (f x))).
  - by rewrite !filter_cons_True by done.
  - by rewrite !filter_cons_False by done.
Qed.

(** ** Friendship rows *)

Lemma friend_pairs_elem (rs : list Row) (i f : Z) :
  (i, f) ∈ friend_pairs rs ↔
  ∃ r, r ∈ rs ∧ ID r = i ∧ f ∈ Friendships r ∧ f ∈ ID <$> rs.
Proof.
  unfold friend_pairs. rewrite list_elem_of_bind. split.
  - intros (r & (f' & [= -> ->] & [? ?]%list_elem_of_filter)%list_elem_of_fmap & Hr).
    by exists r.
  - intros (r & Hr & <- & Hf & Hin). exists r. split; [|done].
    apply list_elem_of_fmap. exists f. split; [done|]. by apply list_elem_of_filter.
Qed.

Lemma Person_friends_elem (rs : list Row) (p q : Person.t) :
  q ∈ Person_friends (loaded rs) p ↔
  (Person.id p, Person.id q) ∈ friend_pairs rs ∧ q ∈ person_of_row <$> rs.
Proof.
  unfold Person_friends. simpl. rewrite list_elem_of_bind. split.
  - intros ([i f] & [Hi He]%list_elem_of_filter & [Hq Hin]%list_elem_of_filter).
    simpl in *. by subst.
  - intros [He Hq]. exists (Person.id p, Person.id q).
    split; by apply list_elem_of_filter.
Qed.

Lemma has_friend_loaded (rs : list Row) (target : Z) (p : Person.t) :
  has_friend (loaded rs) target p ↔ (Person.id p, target) ∈ friend_pairs rs.
Proof.
  unfold has_friend. simpl. rewrite Exists_exists. split.
  - intros ([i f] & He & Hi & (q & _ & Hq & <-)%Exists_exists). simpl in *.
    by subst.
  - intros He. exists (Person.id p, target). split_and!; [done..|].
    apply Exists_exists. simpl.
    apply friend_pairs_elem in He as (_ & _ & _ & _ & (r & -> & Hr)%list_elem_of_fmap).
    exists (person_of_row r). split; [by apply list_elem_of_fmap_2|done].
Qed.

Lemma head_filter_unique {A} (P : A → Prop) `{!∀ x, Decision (P x)} (l : list A) (x : A) :
  x ∈ l → P x → (∀ y, y ∈ l → P y → y = x) → head (filter P l) = Some x.
Proof.
  induction l as [|a l IH]; intros Hx HP Huniq; [by apply elem_of_nil in Hx|].
  destruct (decide (P a)) as [Ha|Ha].
  - rewrite filter_cons_True by done. simpl. f_equal. apply Huniq; [left|done].
  - rewrite filter_cons_False by done. apply IH; [|done|].
    + apply elem_of_cons in Hx as [->|Hx]; done.
    + intros y Hy. apply Huniq. by right.
Qed.

Lemma find_person_unique (rs : list Row) (r : Row) :
  r ∈ rs → name_unique rs r →
  find_person (loaded rs) (display_name (Name r) (Surname r)) = Some (person_of_row r).
Proof.
  intros Hr Huniq. unfold find_person. simpl.
  rewrite head_filter_fmap. by rewrite (head_filter_unique _ rs r).
Qed.

(** ** Friend ids that name nobody *)

Lemma pass1_drop_dangling (df : DataFrame) (ids : list Z) (rs : list Row) (st : Pass1) :
  foldM (add_row (mkFrame (columns df) (drop_dangling_row ids <$> rows df))) st
        (drop_dangling_row ids <$> rs)
  = foldM (add_row df) st rs.
Proof.
  revert st. induction rs as [|r rs IH]; intros st; [done|].
  rewrite fmap_cons. simpl.
  change (add_row (mkFrame (columns df) (drop_dangling_row ids <$> rows df)) st
                  (drop_dangling_row ids r)) with (add_row df st r).
  destruct (add_row df st r); simpl; [apply IH|done].
Qed.

Lemma befriend_drop_dangling (ids : list Z) (pd : gmap Z Person.t) (person : Person.t)
    (fl : list Z) (p : Pending) :
  (∀ i, is_Some (pd !! i) ↔ i ∈ ids) →
  foldl (befriend pd person) p (filter (λ f, f ∈ ids) fl)
  = foldl (befriend pd person) p fl.
Proof.
  intros Hdom. revert p. induction fl as [|f fl IH]; intros p; [done|].
  destruct (decide (f ∈ ids)) as [Hf|Hf].
  - rewrite filter_cons_True by done. simpl. apply IH.
  - rewrite filter_cons_False by done. simpl. rewrite IH. f_equal.
    unfold befriend. destruct (pd !! f) eqn:Hpd; [|done].
    destruct Hf. apply Hdom. by eexists.
Qed.

Lemma pass2_drop_dangling (df : DataFrame) (ids : list Z) (pd : gmap Z Person.t)
    (rs : list Row) (p : Pending) :
  (∀ i, is_Some (pd !! i) ↔ i ∈ ids) →
  foldM (wire_row (mkFrame (columns df) (drop_dangling_row ids <$> rows df)) pd) p
        (drop_dangling_row ids <$> rs)
  = foldM (wire_row df pd) p rs.
Proof.
  intros Hdom. revert p. induction rs as [|r rs IH]; intros p; [done|].
  rewrite fmap_cons. simpl.
  assert (wire_row (mkFrame (columns df) (drop_dangling_row ids <$> rows df)) pd p
                   (drop_dangling_row ids r) = wire_row df pd p r) as ->.
  { unfold wire_row, getitem. simpl.
    destruct (decide ("ID"%string ∈ columns df)); simpl; [|done].
    destruct (pd !! ID r); simpl; [|done].
    destruct (decide ("Friendships"%string ∈ columns df)); simpl; [|done].
    by rewrite befriend_drop_dangling. }
  destruct (wire_row df pd p r); simpl; [apply IH|done].
Qed.

Lemma pass1_dict_dom (df : DataFrame) (st : Pass1) :
  foldM (add_row df) pass1_init (rows df) = Ok st →
  ∀ i, is_Some (people_dict st !! i) ↔ i ∈ ID <$> rows df.
Proof.
  intros Hst. destruct (decide (rows df = [])) as [Hrows|Hrows].
  { rewrite Hrows in Hst |- *. injection Hst as <-. apply pass1_inv_init. }
  destruct (decide (pass1_columns ⊆ columns df)) as [Hp1|Hp1].
  - rewrite pass1_ok in Hst by done. injection Hst as <-. apply pass1_pure_inv.
  - pose proof (pass1_raise df Hp1 Hrows) as Hraise. by rewrite Hst in Hraise.
Qed.

(** Friend ids that name no record change nothing, whether the load ends
    well or not. *)
Lemma load_frame_drop_dangling (df : DataFrame) :
  load_frame empty_store (Ok (drop_dangling df)) = load_frame empty_store (Ok df).
Proof.
  unfold load_frame, drop_dangling. simpl.
  rewrite pass1_drop_dangling.
  destruct (foldM (add_row df) pass1_init (rows df)) as [st|e] eqn:Hst; [|done].
  destruct (commit empty_store (pending st)) as [db1|e]; [|done].
  rewrite pass2_drop_dangling by (by apply (pass1_dict_dom df)).
  done.
Qed.

(** * The claims *)

(** C1.  After a load that ended well, [get_club_members] on a
    description found in the input returns the persons of exactly the
    records that list the description, each once, in the order the
    membership rows were appended; the person of a record that does not
    list the description is absent. *)
Theorem club_members_exact (read_csv : Files) (session : Store) (csv_path : string)
    (df : DataFrame) (s : Store) (d : string) :
  read_csv "members.csv"%string = Ok df →
  load_data_from_csv read_csv session csv_path = (s, Ok ()) →
  d ∈ all_clubs (rows df) →
  get_club_members s d = person_of_row <$> filter (λ r, d ∈ Clubs r) (rows df)
  ∧ Person.id <$> get_club_members s d
    = (filter (λ x, x.2 = d) (membership_pairs (rows df))).*1
  ∧ NoDup (get_club_members s d)
  ∧ ∀ r, r ∈ rows df → (person_of_row r ∈ get_club_members s d ↔ d ∈ Clubs r).
Proof.
  intros Hread Hload Hd. rewrite load_data_from_csv_unfold, Hread in Hload.
  apply load_frame_success in Hload as (-> & Hids & Hms & _).
  rewrite get_club_members_loaded by done.
  split_and!.
  - done.
  - rewrite person_ids. by apply member_ids_of_club.
  - apply (NoDup_fmap_1 Person.id). rewrite person_ids.
    eapply sublist_NoDup; [done|]. apply fmap_sublist, sublist_filter.
  - intros r Hr. rewrite list_elem_of_fmap. split.
    + intros (r' & Heq & [Hd' Hr']%list_elem_of_filter).
      apply (f_equal Person.id) in Heq. simpl in Heq.
      by rewrite (NoDup_fmap_eq ID (rows df) r r').
    + intros Hdr. exists r. split; [done|]. by apply list_elem_of_filter.
Qed.

Lemma club_members_exact_witness :
  get_club_members scenario_store "Fitness Club" = [john; amanda]
  ∧ NoDup (get_club_members scenario_store "Fitness Club").
Proof.
  destruct (club_members_exact (λ _, Ok scenario) empty_store "members.csv" scenario
              scenario_store "Fitness Club") as (H1 & _ & H3 & _).
  - reflexivity.
  - vm_compute. reflexivity.
  - vm_compute. left.
  - split; [|exact H3]. rewrite H1. vm_compute. reflexivity.
Defined.

(** C2, as amended.  After a load that ended well, let record [a] list
    the id of record [b] and [b] not list the id of [a].  If no other
    record bears [a]'s display name, [b]'s person is among the friends of
    [a]'s name.  If no other record bears [b]'s display name, [a]'s person
    is not among the friends of [b]'s name and is among those who consider
    [b]'s name a friend. *)
Theorem friendship_directed (read_csv : Files) (session : Store) (csv_path : string)
    (df : DataFrame) (s : Store) (a b : Row) :
  read_csv "members.csv"%string = Ok df →
  load_data_from_csv read_csv session csv_path = (s, Ok ()) →
  a ∈ rows df → b ∈ rows df →
  ID b ∈ Friendships a → ID a ∉ Friendships b →
  (name_unique (rows df) a →
     person_of_row b ∈ get_friends_of_person s (display_name (Name a) (Surname a)))
  ∧ (name_unique (rows df) b →
       (person_of_row a ∉ get_friends_of_person s (display_name (Name b) (Surname b)))
       ∧ person_of_row a
         ∈ get_persons_who_consider_them_friend s (display_name (Name b) (Surname b))).
Proof.
  intros Hread Hload Ha Hb Hab Hba.
  rewrite load_data_from_csv_unfold, Hread in Hload.
  apply load_frame_success in Hload as (-> & Hids & _).
  unfold get_friends_of_person, get_persons_who_consider_them_friend.
  assert ((ID a, ID b) ∈ friend_pairs (rows df)) as Hedge.
  { apply friend_pairs_elem. exists a. split_and!; [done..|]. by apply list_elem_of_fmap_2. }
  split.
  - intros Hua. rewrite find_person_unique by done.
    apply Person_friends_elem. split; [done|]. by apply list_elem_of_fmap_2.
  - intros Hub. rewrite !find_person_unique by done. split.
    + intros [(r & Hr & Hid & Hf & _)%friend_pairs_elem _]%Person_friends_elem.
      simpl in *. by rewrite (NoDup_fmap_eq ID (rows df) r b) in Hf.
    + apply list_elem_of_filter. split; [by apply has_friend_loaded|].
      simpl. by apply list_elem_of_fmap_2.
Qed.

(** C2 as stated fails on either side.  In [namesakes] record 1 lists
    record 2 and not conversely, yet the person of record 2 is not among
    the friends found for the name of record 1: there are none.  In
    [namesakes_of_target] record 1 lists record 2 and not conversely, yet
    the person of record 1 is the friend found for the name of record 2,
    and nobody is found to consider that name a friend. *)
Lemma friendship_directed_counterexample :
  (load_data_from_csv (λ _, Ok namesakes) empty_store "members.csv" = (namesakes_store, Ok ())
   ∧ sam_the_younger ∈ rows namesakes ∧ kim ∈ rows namesakes
   ∧ ID kim ∈ Friendships sam_the_younger ∧ (ID sam_the_younger ∉ Friendships kim)
   ∧ Person.name (person_of_row sam_the_younger) = "Sam Lee"%string
   ∧ get_friends_of_person namesakes_store "Sam Lee" = [])
  ∧ (load_data_from_csv (λ _, Ok namesakes_of_target) empty_store "members.csv"
     = (namesakes_of_target_store, Ok ())
     ∧ lee ∈ rows namesakes_of_target ∧ kim ∈ rows namesakes_of_target
     ∧ ID kim ∈ Friendships lee ∧ (ID lee ∉ Friendships kim)
     ∧ Person.name (person_of_row kim) = "Kim Roe"%string
     ∧ get_friends_of_person namesakes_of_target_store "Kim Roe" = [person_of_row lee]
     ∧ get_persons_who_consider_them_friend namesakes_of_target_store "Kim Roe" = []).
Proof.
  split; split_and!.
  - vm_compute. reflexivity.
  - right; left.
  - right; right; left.
  - left.
  - apply not_elem_of_nil.
  - reflexivity.
  - vm_compute. reflexivity.
  - vm_compute. reflexivity.
  - right; left.
  - right; right; left.
  - left.
  - apply not_elem_of_nil.
  - reflexivity.
  - vm_compute. reflexivity.
  - vm_compute. reflexivity.
Qed.

Lemma friendship_directed_witness :
  amanda ∈ get_friends_of_person scenario_store "John Rocha"
  ∧ (john ∉ get_friends_of_person scenario_store "Amanda Norris")
  ∧ john ∈ get_persons_who_consider_them_friend scenario_store "Amanda Norris".
Proof.
  assert (∀ r0, r0 ∈ rows scenario → name_unique (rows scenario) r0) as Huniq.
  { intros r0 Hr0 r Hr Hname. vm_compute in Hr, Hr0.
    repeat (apply elem_of_cons in Hr0 as [->|Hr0]);
      try (by apply elem_of_nil in Hr0);
      repeat (apply elem_of_cons in Hr as [->|Hr]);
      try (by apply elem_of_nil in Hr);
      done || (vm_compute in Hname; discriminate). }
  destruct (friendship_directed (λ _, Ok scenario) empty_store "members.csv" scenario
           scenario_store
           (mkRow 0 "John" "Rocha" 57 "Male" "MN" ["Fitness Club"%string] [1])
           (mkRow 1 "Amanda" "Norris" 27 "Female" "CA" ["Fitness Club"%string] []))
    as [H1 H2].
  - reflexivity.
  - vm_compute. reflexivity.
  - left.
  - right; left.
  - left.
  - apply not_elem_of_nil.
  - split; [apply H1|apply H2]; apply Huniq.
    + left.
    + right; left.
Defined.

(** C3, as amended.  Friend ids that name no record are skipped: the load
    of the input is the load of the input without them, error or not.
    After a load that ended well, for every record [R] and every id [F] of
    its friend list: if some record has id [F], wherever it stands in the
    input, the row [(ID R, F)] is in [friendships], and, when no other
    record bears [R]'s display name, the person of the record with id [F]
    is among the friends found for [R]'s name; if no record has id [F],
    there is no row [(ID R, F)]. *)
Theorem friendships_wired (read_csv read_csv' : Files) (session : Store)
    (csv_path : string) (df : DataFrame) :
  read_csv "members.csv"%string = Ok df →
  read_csv' "members.csv"%string = Ok (drop_dangling df) →
  load_data_from_csv read_csv' session csv_path = load_data_from_csv read_csv session csv_path
  ∧ ∀ s, load_data_from_csv read_csv session csv_path = (s, Ok ()) →
      ∀ R F, R ∈ rows df → F ∈ Friendships R →
        (F ∈ ID <$> rows df →
           (ID R, F) ∈ friendships s
           ∧ (name_unique (rows df) R →
                ∃ T, T ∈ rows df ∧ ID T = F
                     ∧ person_of_row T
                       ∈ get_friends_of_person s (display_name (Name R) (Surname R))))
        ∧ (F ∉ ID <$> rows df → (ID R, F) ∉ friendships s).
Proof.
  intros Hread Hread'. split.
  { rewrite !load_data_from_csv_unfold, Hread, Hread'. apply load_frame_drop_dangling. }
  intros s Hload R F HR HF.
  rewrite load_data_from_csv_unfold, Hread in Hload.
  apply load_frame_success in Hload as (-> & Hids & _). simpl.
  split.
  - intros HFin.
    assert ((ID R, F) ∈ friend_pairs (rows df)) as Hedge.
    { apply friend_pairs_elem. by exists R. }
    split; [done|]. intros Huniq.
    apply list_elem_of_fmap in HFin as (T & -> & HT).
    exists T. split_and!; [done..|].
    unfold get_friends_of_person. rewrite find_person_unique by done.
    apply Person_friends_elem. split; [done|]. by apply list_elem_of_fmap_2.
  - intros HFin (r & _ & _ & _ & ?)%friend_pairs_elem. done.
Qed.

(** C3 as stated fails in its parenthesis: record 1 lists id 0, a person
    with id 0 was loaded and the edge (1, 0) exists, yet the friends found
    for the name of record 1 are none. *)
Lemma friendships_wired_counterexample :
  load_data_from_csv (λ _, Ok homonyms) empty_store "members.csv" = (homonyms_store, Ok ())
  ∧ ann_the_second ∈ rows homonyms
  ∧ 0 ∈ Friendships ann_the_second
  ∧ person_of_row ann_the_first ∈ people homonyms_store
  ∧ (1, 0) ∈ friendships homonyms_store
  ∧ Person.name (person_of_row ann_the_second) = "Ann Ray"%string
  ∧ get_friends_of_person homonyms_store "Ann Ray" = [].
Proof.
  split_and!.
  - vm_compute. reflexivity.
  - right; left.
  - left.
  - left.
  - left.
  - reflexivity.
  - vm_compute. reflexivity.
Qed.

Lemma friendships_wired_witness :
  (load_data_from_csv (λ _, Ok (drop_dangling forward_and_dangling)) empty_store "members.csv"
   = load_data_from_csv (λ _, Ok forward_and_dangling) empty_store "members.csv")
  ∧ (load_data_from_csv (λ _, Ok forward_and_dangling) empty_store "members.csv").2 = Ok ()
  ∧ (0, 1) ∈ friendships
               (load_data_from_csv (λ _, Ok forward_and_dangling) empty_store "members.csv").1.
Proof.
  destruct (friendships_wired (λ _, Ok forward_and_dangling)
              (λ _, Ok (drop_dangling forward_and_dangling)) empty_store "members.csv"
              forward_and_dangling) as [Hsame Hedges]; [reflexivity..|].
  split_and!; [exact Hsame|vm_compute; reflexivity|].
  destruct (Hedges (load_data_from_csv (λ _, Ok forward_and_dangling) empty_store "members.csv").1
              ltac:(vm_compute; reflexivity)
              (mkRow 0 "Eve" "Fox" 31 "Female" "ME" [] [1; 99]) 1) as [Hin _].
  - left.
  - left.
  - apply Hin. right; left.
Defined.

(** C4.  A load starts by emptying the four tables, so its result does not
    depend on what the store held; after a load that ended well the four
    tables hold what the input gives and nothing else. *)
Theorem load_replaces_store (read_csv : Files) (session : Store) (csv_path : string) :
  delete_all session = empty_store
  ∧ (∀ session', load_data_from_csv read_csv session' csv_path
                 = load_data_from_csv read_csv session csv_path)
  ∧ (∀ df s, read_csv "members.csv"%string = Ok df →
       load_data_from_csv read_csv session csv_path = (s, Ok ()) →
       people s = person_of_row <$> rows df
       ∧ clubs s = club_table (rows df)
       ∧ friendships s = friend_pairs (rows df)
       ∧ club_members s = member_table (rows df)).
Proof.
  split_and!; [done..|].
  intros df s Hread Hload. rewrite load_data_from_csv_unfold, Hread in Hload.
  by apply load_frame_success in Hload as (-> & _).
Qed.

Lemma load_replaces_store_witness :
  load_data_from_csv (λ _, Ok scenario) stale_store "members.csv" = (scenario_store, Ok ())
  ∧ people scenario_store = [john; amanda; ghost].
Proof.
  destruct (load_replaces_store (λ _, Ok scenario) stale_store "members.csv")
    as (_ & Hany & Hin).
  split.
  - rewrite <-(Hany empty_store). vm_compute. reflexivity.
  - destruct (Hin scenario scenario_store) as (-> & _).
    + reflexivity.
    + vm_compute. reflexivity.
    + reflexivity.
Defined.

(** C5.  A key that matches no Club, or no Person, gets the empty list from
    each query, on any store and on the store never loaded; the queries are
    total, there is no error to raise. *)
Theorem unknown_key_empty (s : Store) (d n : string) :
  ((∀ c, c ∈ clubs s → Club.description c ≠ d) → get_club_members s d = [])
  ∧ ((∀ q, q ∈ people s → Person.name q ≠ n) →
       get_friends_of_person s n = []
       ∧ get_persons_who_consider_them_friend s n = [])
  ∧ get_club_members empty_store d = []
  ∧ get_friends_of_person empty_store n = []
  ∧ get_persons_who_consider_them_friend empty_store n = [].
Proof.
  split_and!; try done.
  - intros Hd. unfold get_club_members, find_club.
    by rewrite head_filter_none.
  - intros Hn. unfold get_friends_of_person, get_persons_who_consider_them_friend, find_person.
    by rewrite head_filter_none.
Qed.

Lemma unknown_key_empty_witness :
  get_club_members scenario_store "Nonexistent Club" = []
  ∧ get_friends_of_person scenario_store "Nobody" = []
  ∧ get_persons_who_consider_them_friend scenario_store "Nobody" = [].
Proof.
  destruct (unknown_key_empty scenario_store "Nonexistent Club" "Nobody")
    as (Hclub & Hperson & _).
  split.
  - apply Hclub. intros c Hc. vm_compute in Hc.
    apply list_elem_of_singleton in Hc as ->. vm_compute. discriminate.
  - apply Hperson. intros q Hq. vm_compute in Hq.
    repeat (apply elem_of_cons in Hq as [->|Hq]; [vm_compute; discriminate|]).
    by apply elem_of_nil in Hq.
Defined.

(** C6, as amended.  A malformed input makes the load raise.  When reading
    raises, or a column read by the first loop is missing, the store is
    left empty.  Whenever a load raises, the store is left either empty or
    as the first commit made it: every person, club and membership of the
    input and no friendship. *)
Theorem failed_load_state (read_csv : Files) (session : Store) (csv_path : string) :
  let out := load_data_from_csv read_csv session csv_path in
  (malformed (read_csv "members.csv"%string) → raises out.2)
  ∧ (∀ e, read_csv "members.csv"%string = Raise e → out = (empty_store, Raise e))
  ∧ (∀ df, read_csv "members.csv"%string = Ok df →
       rows df ≠ [] → ¬ pass1_columns ⊆ columns df →
       out.1 = empty_store ∧ raises out.2)
  ∧ (∀ df, read_csv "members.csv"%string = Ok df → raises out.2 →
       out.1 = empty_store
       ∨ (people out.1 = person_of_row <$> rows df
          ∧ clubs out.1 = club_table (rows df)
          ∧ club_members out.1 = member_table (rows df)
          ∧ friendships out.1 = [])).
Proof.
  simpl. rewrite load_data_from_csv_unfold. split_and!.
  - destruct (read_csv "members.csv"%string) as [df|e]; simpl; [|done].
    intros [Hrows Hcols]. by apply load_frame_missing.
  - by intros e ->.
  - intros df -> Hrows Hcols.
    by destruct (load_frame_pass1_missing df Hcols Hrows) as [e ->].
  - intros df -> Hraise.
    destruct (load_frame empty_store (Ok df)) as [s [[]|e]] eqn:Hload; [done|].
    simpl. apply load_frame_failure in Hload as [->| ->]; [by left|by right].
Qed.

(** C6 as stated fails.  Without the Friendships column the load raises
    after its first commit: the store is neither what it was nor empty.
    And a malformed row is not the only fatal case: two rows with one id
    raise at the first commit, and a friend id written twice in one record
    raises at the second, after the first has made its half of the load. *)
Lemma failed_load_state_counterexample :
  malformed (Ok no_friendships_column)
  ∧ load_data_from_csv (λ _, Ok no_friendships_column) stale_store "members.csv"
    = (mkStore [john] [Club.mk 1 "Fitness Club"] [] [(0, 1)],
       Raise (KeyError (KStr "Friendships")))
  ∧ mkStore [john] [Club.mk 1 "Fitness Club"] [] [(0, 1)] ≠ stale_store
  ∧ mkStore [john] [Club.mk 1 "Fitness Club"] [] [(0, 1)] ≠ empty_store
  ∧ ¬ malformed (Ok twins)
  ∧ load_data_from_csv (λ _, Ok twins) stale_store "members.csv"
    = (empty_store, Raise IntegrityError)
  ∧ ¬ malformed (Ok repeated_friend)
  ∧ load_data_from_csv (λ _, Ok repeated_friend) stale_store "members.csv"
    = (mkStore [Person.mk 0 "Eve Fox" 31 "Female" "ME"; Person.mk 1 "Dan Orr" 32 "Male" "VT"]
               [] [] [],
       Raise IntegrityError).
Proof.
  split_and!.
  - split; [done|]. intros Hcols.
    assert ("Friendships"%string ∈ columns no_friendships_column) as Hin
      by (apply Hcols; unfold all_columns; set_solver).
    vm_compute in Hin. set_solver.
  - vm_compute. reflexivity.
  - discriminate.
  - discriminate.
  - intros [_ Hcols]. by apply Hcols.
  - vm_compute. reflexivity.
  - intros [_ Hcols]. by apply Hcols.
  - vm_compute. reflexivity.
Qed.

Lemma failed_load_state_witness :
  raises (load_data_from_csv (λ _, Ok no_friendships_column) stale_store "members.csv").2
  ∧ raises (load_data_from_csv (λ _, Raise SyntaxError) stale_store "members.csv").2.
Proof.
  split.
  - apply (failed_load_state (λ _, Ok no_friendships_column) stale_store "members.csv").
    split; [done|]. intros Hcols.
    assert ("Friendships"%string ∈ columns no_friendships_column) as Hin
      by (apply Hcols; unfold all_columns; set_solver).
    vm_compute in Hin. set_solver.
  - apply (failed_load_state (λ _, Raise SyntaxError) stale_store "members.csv").
    exact I.
Defined.

(** C7.  After a load that ended well the clubs table holds one Club per
    distinct description of the input; the ids are 1, 2, ... in the order
    the descriptions are first seen over the whole input; and the
    membership row of every occurrence of a description points to that one
    Club. *)
Theorem clubs_created_once (read_csv : Files) (session : Store) (csv_path : string)
    (df : DataFrame) (s : Store) :
  read_csv "members.csv"%string = Ok df →
  load_data_from_csv read_csv session csv_path = (s, Ok ()) →
  Club.description <$> clubs s = first_seen (all_clubs (rows df))
  ∧ NoDup (Club.description <$> clubs s)
  ∧ (∀ d, d ∈ Club.description <$> clubs s ↔ d ∈ all_clubs (rows df))
  ∧ (∀ i c, clubs s !! i = Some c → Club.id c = 1 + Z.of_nat i)
  ∧ (∀ c1 c2, c1 ∈ clubs s → c2 ∈ clubs s →
       (Club.id c1 < Club.id c2 ↔
        (index_of (Club.description c1) (all_clubs (rows df))
         < index_of (Club.description c2) (all_clubs (rows df)))%nat))
  ∧ Forall2 (λ m x, m.1 = x.1 ∧ Club.mk m.2 x.2 ∈ clubs s)
            (club_members s) (membership_pairs (rows df)).
Proof.
  intros Hread Hload. rewrite load_data_from_csv_unfold, Hread in Hload.
  apply load_frame_success in Hload as (-> & Hids & Hms & _). simpl.
  assert (∀ c1 c2, c1 ∈ club_table (rows df) → c2 ∈ club_table (rows df) →
            Club.id c1 < Club.id c2 →
            (index_of (Club.description c1) (all_clubs (rows df))
             < index_of (Club.description c2) (all_clubs (rows df)))%nat) as Horder.
  { intros c1 c2 [i [H1 Hi]%club_table_lookup]%list_elem_of_lookup
                 [j [H2 Hj]%club_table_lookup]%list_elem_of_lookup Hlt.
    eapply first_seen_order; [done..|lia]. }
  split_and!.
  - apply club_table_descriptions.
  - rewrite club_table_descriptions. apply first_seen_NoDup.
  - intros d. rewrite club_table_descriptions. apply first_seen_elem.
  - by intros i c [_ ?]%club_table_lookup.
  - intros c1 c2 Hc1 Hc2. split; [by apply Horder|].
    intros Hlt. destruct (Z.lt_trichotomy (Club.id c1) (Club.id c2)) as [?|[Heq|Hgt]].
    + done.
    + apply list_elem_of_lookup in Hc1 as [i Hi]. apply list_elem_of_lookup in Hc2 as [j Hj].
      apply club_table_lookup in Hi as Hi'. apply club_table_lookup in Hj as Hj'.
      assert (i = j) as -> by lia. assert (c1 = c2) as -> by congruence. lia.
    + apply Horder in Hgt; [lia|done..].
  - unfold member_table. apply Forall2_fmap_l, Forall_Forall2_diag, Forall_forall.
    intros [p d] Hx. simpl. split; [done|]. apply club_of_description.
    rewrite <-membership_pairs_clubs. by apply (list_elem_of_fmap_2 snd) in Hx.
Qed.

Lemma clubs_created_once_witness :
  Club.description <$> clubs scenario_store = ["Fitness Club"%string]
  ∧ NoDup (Club.description <$> clubs scenario_store).
Proof.
  destruct (clubs_created_once (λ _, Ok scenario) empty_store "members.csv" scenario
              scenario_store) as (H1 & H2 & _).
  - reflexivity.
  - vm_compute. reflexivity.
  - split; [|exact H2]. rewrite H1. vm_compute. reflexivity.
Defined.

(** C8.  Loading twice in a row leaves the store, and so the answer of
    every query, as loading once does. *)
Theorem reload_idempotent (read_csv : Files) (session : Store) (path1 path2 : string) :
  let once := load_data_from_csv read_csv session path1 in
  let twice := load_data_from_csv read_csv once.1 path2 in
  twice = once
  ∧ ∀ key,
      get_club_members twice.1 key = get_club_members once.1 key
      ∧ get_friends_of_person twice.1 key = get_friends_of_person once.1 key
      ∧ get_persons_who_consider_them_friend twice.1 key
        = get_persons_who_consider_them_friend once.1 key.
Proof. simpl. rewrite !load_data_from_csv_unfold. done. Qed.

(** C9.  After a load that ended well every record has given one row of
    [people] whose name is the given name, one space and the surname, and
    whose id, age, gender and location are the record's.  Both name-keyed
    queries go through [find_person]: it finds nobody exactly when no
    record's name so built is the key, and whom it finds is the person of a
    record whose name so built is the key. *)
Theorem persons_stored (read_csv : Files) (session : Store) (csv_path : string)
    (df : DataFrame) (s : Store) :
  read_csv "members.csv"%string = Ok df →
  load_data_from_csv read_csv session csv_path = (s, Ok ()) →
  people s
  = (λ r, Person.mk (ID r) (Name r +:+ " " +:+ Surname r) (Age r) (Gender r) (Location r))
    <$> rows df
  ∧ ∀ n,
      (find_person s n = None ↔ ∀ r, r ∈ rows df → Name r +:+ " " +:+ Surname r ≠ n)
      ∧ (∀ q, find_person s n = Some q →
           ∃ r, r ∈ rows df ∧ Name r +:+ " " +:+ Surname r = n
                ∧ q = Person.mk (ID r) n (Age r) (Gender r) (Location r))
      ∧ get_friends_of_person s n = from_option (Person_friends s) [] (find_person s n)
      ∧ get_persons_who_consider_them_friend s n
        = from_option (λ target, filter (has_friend s (Person.id target)) (people s)) []
                      (find_person s n).
Proof.
  intros Hread Hload. rewrite load_data_from_csv_unfold, Hread in Hload.
  apply load_frame_success in Hload as (-> & _).
  split; [done|]. intros n.
  unfold get_friends_of_person, get_persons_who_consider_them_friend.
  split_and!; [| |by destruct (find_person _ n)..].
  - unfold find_person. simpl. rewrite head_filter_fmap. split.
    + intros Hnone r Hr Hname.
      destruct (head _) as [r'|] eqn:Hhead; [done|].
      apply head_None in Hhead.
      eapply (filter_nil_not_elem_of _ _ r); done.
    + intros Hall. by rewrite head_filter_none.
  - intros q Hq. unfold find_person in Hq. simpl in Hq.
    rewrite head_filter_fmap in Hq.
    destruct (head _) as [r|] eqn:Hhead; [|done]. injection Hq as <-.
    apply head_Some_elem_of, list_elem_of_filter in Hhead as [Hname Hr].
    simpl in Hname. exists r. split_and!; [done..|].
    unfold person_of_row. by rewrite <-Hname.
Qed.

Lemma persons_stored_witness :
  people scenario_store = [john; amanda; ghost]
  ∧ find_person scenario_store "Nobody" = None.
Proof.
  destruct (persons_stored (λ _, Ok scenario) empty_store "members.csv" scenario
              scenario_store) as (H1 & H2).
  - reflexivity.
  - vm_compute. reflexivity.
  - split.
    + rewrite H1. reflexivity.
    + apply (H2 "Nobody"%string). intros r Hr. vm_compute in Hr.
      repeat (apply elem_of_cons in Hr as [->|Hr]; [vm_compute; discriminate|]).
      by apply elem_of_nil in Hr.
Defined.

(** C10.  The load reads "members.csv" whatever [csv_path] is.  Two file
    systems that agree on that one file give the same load for any two
    paths, whatever they hold at those paths; and the load is that of the
    content of "members.csv": when that file cannot be read the load raises
    the error of reading it and leaves the store empty; when the load ends
    well the store holds the records of that file; and records of that
    file with all columns, integers that fit, distinct ids and no club or
    friend twice are loaded without error. *)
Theorem csv_path_ignored (fs fs' : Files) (session : Store) (path path' : string) :
  fs "members.csv"%string = fs' "members.csv"%string →
  load_data_from_csv fs session path = load_data_from_csv fs' session path'
  ∧ (∀ e, fs "members.csv"%string = Raise e →
       load_data_from_csv fs session path = (empty_store, Raise e))
  ∧ (∀ df s, fs "members.csv"%string = Ok df →
       load_data_from_csv fs session path = (s, Ok ()) → s = loaded (rows df))
  ∧ (∀ df, fs "members.csv"%string = Ok df → all_columns ⊆ columns df →
       (∀ r, r ∈ rows df → int64 (ID r) ∧ int64 (Age r)) →
       NoDup (ID <$> rows df) → NoDup (membership_pairs (rows df)) →
       NoDup (friend_pairs (rows df)) →
       load_data_from_csv fs session path = (loaded (rows df), Ok ())).
Proof.
  intros Heq. rewrite !load_data_from_csv_unfold. split_and!.
  - by rewrite Heq.
  - by intros e ->.
  - intros df s -> Hload. by apply load_frame_success in Hload as [-> _].
  - intros df -> Hcols Hb Hids Hms Hfp. rewrite load_frame_spec by done.
    rewrite decide_True by (split_and!; [by apply Forall_forall|done..]).
    by rewrite decide_True.
Qed.

(** "other.csv" holds other records and is the path given: the records
    loaded are those of "members.csv". *)
Lemma csv_path_ignored_witness :
  load_data_from_csv two_files stale_store "other.csv"
  = (mkStore [john; amanda; ghost] [Club.mk 1 "Fitness Club"] [(0, 1); (2, 0)]
             [(0, 1); (1, 1)],
     Ok ()).
Proof.
  destruct (csv_path_ignored two_files two_files stale_store "other.csv" "other.csv")
    as (_ & _ & _ & Hload).
  - reflexivity.
  - rewrite (Hload scenario).
    + vm_compute. reflexivity.
    + reflexivity.
    + done.
    + intros r Hr. vm_compute in Hr.
      repeat (apply elem_of_cons in Hr as [->|Hr]; [vm_compute; repeat split; discriminate|]).
      by apply elem_of_nil in Hr.
    + vm_compute. repeat constructor; set_solver.
    + vm_compute. repeat constructor; set_solver.
    + vm_compute. repeat constructor; set_solver.
Defined.

(** * Further properties of the loader and the queries *)

(** ** How a load can end *)

Lemma load_frame_cases (df : DataFrame) (s : Store) (out : result ()) :
  load_frame empty_store (Ok df) = (s, out) →
  (s = empty_store ∧ (out = Ok () → rows df = []))
  ∨ (NoDup (ID <$> rows df) ∧ NoDup (membership_pairs (rows df))
     ∧ ((s = half_loaded (rows df) ∧ raises out)
        ∨ (s = loaded (rows df) ∧ out = Ok () ∧ NoDup (friend_pairs (rows df))))).
Proof.
  intros Hload.
  destruct (decide (rows df = [])) as [Hrows|Hrows].
  { rewrite load_frame_no_rows in Hload by done. injection Hload as <- <-. by left. }
  destruct (decide (pass1_columns ⊆ columns df)) as [Hp1|Hp1].
  2:{ destruct (load_frame_pass1_missing df Hp1 Hrows) as [e He].
      rewrite He in Hload. injection Hload as <- <-. by left. }
  destruct (decide ("Friendships"%string ∈ columns df)) as [Hfr|Hfr].
  2:{ destruct (load_frame_no_friendships df Hp1 Hfr Hrows) as [e He].
      rewrite He in Hload. case_decide as Hk; injection Hload as <- <-.
      - right. destruct Hk as (_ & ? & ?). split_and!; [done..|]. by left.
      - by left. }
  rewrite load_frame_spec in Hload by (by apply all_columns_split).
  case_decide as Hk; [case_decide as Hf|]; injection Hload as <- <-.
  - right. destruct Hk as (_ & ? & ?). split_and!; [done..|]. by right.
  - right. destruct Hk as (_ & ? & ?). split_and!; [done..|]. by left.
  - by left.
Qed.

(** Rows of an association table built record by record, under distinct
    ids: no row twice exactly when no record lists a target twice. *)
Lemma pairs_NoDup {B} (g : Row → list B) (rs : list Row) :
  NoDup (ID <$> rs) →
  NoDup (r ← rs; (λ y, (ID r, y)) <$> g r) ↔ ∀ r, r ∈ rs → NoDup (g r).
Proof.
  induction rs as [|r rs IH]; intros Hids.
  { split; [by intros _ r ?%elem_of_nil|constructor]. }
  rewrite fmap_cons in Hids. apply NoDup_cons in Hids as [Hr Hids].
  rewrite bind_cons, NoDup_app, IH by done. split.
  - intros (Hg%NoDup_fmap_1 & _ & Hall) r' [->|Hr']%elem_of_cons; [done|by apply Hall].
  - intros Hall. split_and!.
    + apply NoDup_fmap_2; [by intros y1 y2 [=]|]. apply Hall. left.
    + intros [i y] (y' & [= -> ->] & _)%list_elem_of_fmap
        (r' & (y'' & [= Hi _] & _)%list_elem_of_fmap & Hr')%list_elem_of_bind.
      apply Hr. rewrite Hi. by apply list_elem_of_fmap_2.
    + intros r' Hr'. apply Hall. by right.
Qed.

Lemma membership_pairs_NoDup (rs : list Row) :
  NoDup (ID <$> rs) →
  NoDup (membership_pairs rs) ↔ ∀ r, r ∈ rs → NoDup (Clubs r).
Proof. apply (pairs_NoDup Clubs). Qed.

Lemma friend_pairs_NoDup (rs : list Row) :
  NoDup (ID <$> rs) →
  NoDup (friend_pairs rs) ↔ ∀ r, r ∈ rs → NoDup (loaded_friends rs r).
Proof. apply (pairs_NoDup (loaded_friends rs)). Qed.

(** X1.  For a frame that has all its columns the load ends well exactly
    when every id and age fits a 64 bit INTEGER, no two records have one
    id, no record lists a club twice and no record lists twice the id of a
    loaded person.  When one of the first three fails the first commit
    raises and the store is left empty: [IntegrityError] when the integers
    fit, [OverflowError] when the ids are distinct and an integer does not
    fit.  When only a friend id is repeated the second commit raises
    [IntegrityError], leaving the persons, clubs and memberships. *)
Theorem load_succeeds_iff (read_csv : Files) (session : Store) (csv_path : string)
    (df : DataFrame) :
  read_csv "members.csv"%string = Ok df →
  all_columns ⊆ columns df →
  let out := load_data_from_csv read_csv session csv_path in
  let in_range := ∀ r, r ∈ rows df → int64 (ID r) ∧ int64 (Age r) in
  let ids_ok := NoDup (ID <$> rows df) in
  let clubs_ok := ∀ r, r ∈ rows df → NoDup (Clubs r) in
  let friends_ok := ∀ r, r ∈ rows df → NoDup (loaded_friends (rows df) r) in
  (out.2 = Ok () ↔ in_range ∧ ids_ok ∧ clubs_ok ∧ friends_ok)
  ∧ (¬ (in_range ∧ ids_ok ∧ clubs_ok) → out.1 = empty_store ∧ raises out.2)
  ∧ (in_range → ¬ (ids_ok ∧ clubs_ok) → out = (empty_store, Raise IntegrityError))
  ∧ (ids_ok → ¬ in_range → out = (empty_store, Raise OverflowError))
  ∧ (in_range → ids_ok → clubs_ok → ¬ friends_ok →
       out = (half_loaded (rows df), Raise IntegrityError)).
Proof.
  intros Hread Hcols. simpl.
  rewrite load_data_from_csv_unfold, Hread, load_frame_spec by done.
  change (∀ r, r ∈ rows df → int64 (ID r) ∧ int64 (Age r))
    with (∀ r, r ∈ rows df → row_bindable r).
  rewrite <-Forall_forall.
  destruct (decide (first_commit_ok (rows df))) as [(Hb & Hids & Hms)|Hno].
  - pose proof (proj1 (membership_pairs_NoDup _ Hids) Hms) as Hclubs.
    destruct (decide (NoDup (friend_pairs (rows df)))) as [Hfp|Hfp].
    + pose proof (proj1 (friend_pairs_NoDup _ Hids) Hfp) as Hfriends.
      simpl. split_and!; [done|by intros []|by intros _ []|done..].
    + simpl. split_and!.
      * split; [done|]. intros (_ & _ & _ & Hfriends).
        destruct Hfp. by apply friend_pairs_NoDup.
      * by intros [].
      * by intros _ [].
      * done.
      * done.
  - assert (¬ (Forall row_bindable (rows df) ∧ NoDup (ID <$> rows df)
               ∧ ∀ r, r ∈ rows df → NoDup (Clubs r))) as Hno'.
    { intros (Hb & Hids & Hclubs). apply Hno. split_and!; [done..|].
      by apply membership_pairs_NoDup. }
    simpl. split_and!.
    + split; [done|]. intros (? & ? & ? & _). by destruct Hno'.
    + done.
    + intros Hb _. by rewrite first_commit_error_keys.
    + intros Hids Hb. by rewrite first_commit_error_range.
    + intros. by destruct Hno'.
Qed.

Lemma load_succeeds_iff_witness :
  load_data_from_csv (λ _, Ok beyond_int64) stale_store "members.csv"
  = (empty_store, Raise OverflowError).
Proof.
  destruct (load_succeeds_iff (λ _, Ok beyond_int64) stale_store "members.csv"
              beyond_int64) as (_ & _ & _ & Hov & _).
  - reflexivity.
  - done.
  - apply Hov.
    + vm_compute. repeat constructor; set_solver.
    + intros Hb. destruct (Hb (mkRow (2 ^ 63) "Dan" "Orr" 32 "Male" "VT" [] [])) as [[_ Hlt] _].
      * vm_compute. set_solver.
      * vm_compute in Hlt. discriminate.
Defined.

(** ** Friends and those who consider one a friend *)

Lemma people_NoDup (rs : list Row) :
  NoDup (ID <$> rs) → NoDup (person_of_row <$> rs).
Proof. intros Hids. apply (NoDup_fmap_1 Person.id). by rewrite person_ids. Qed.

Lemma Person_friends_of_row (rs : list Row) (R : Row) (q : Person.t) :
  NoDup (ID <$> rs) → R ∈ rs →
  q ∈ Person_friends (loaded rs) (person_of_row R) ↔
  ∃ T, T ∈ rs ∧ q = person_of_row T ∧ ID T ∈ Friendships R.
Proof.
  intros Hids HR. rewrite Person_friends_elem, friend_pairs_elem. simpl. split.
  - intros [(r & Hr & Hid & Hf & _) (T & -> & HT)%list_elem_of_fmap].
    rewrite (NoDup_fmap_eq ID rs r R) in Hf by done. by exists T.
  - intros (T & HT & -> & Hf). split; [|by apply list_elem_of_fmap_2].
    exists R. simpl. split_and!; [done..|]. by apply list_elem_of_fmap_2.
Qed.

Lemma Person_friends_NoDup (rs : list Row) (p : Person.t) :
  NoDup (ID <$> rs) → NoDup (friend_pairs rs) →
  NoDup (Person_friends (loaded rs) p).
Proof.
  intros Hids Hfp. unfold Person_friends. simpl. apply NoDup_bind.
  - intros [i1 f1] [i2 f2] q [Hi1 _]%list_elem_of_filter [Hi2 _]%list_elem_of_filter
      [Hq1 _]%list_elem_of_filter [Hq2 _]%list_elem_of_filter.
    simpl in *. congruence.
  - intros e _. by apply NoDup_filter, people_NoDup.
  - by apply NoDup_filter.
Qed.

Lemma admirers_of_row (rs : list Row) (B : Row) (q : Person.t) :
  NoDup (ID <$> rs) → B ∈ rs →
  q ∈ filter (has_friend (loaded rs) (ID B)) (people (loaded rs)) ↔
  ∃ A, A ∈ rs ∧ q = person_of_row A ∧ ID B ∈ Friendships A.
Proof.
  intros Hids HB. rewrite list_elem_of_filter, has_friend_loaded, friend_pairs_elem.
  simpl. split.
  - intros [(r & Hr & Hid & Hf & _) (A & -> & HA)%list_elem_of_fmap].
    simpl in Hid. rewrite (NoDup_fmap_eq ID rs r A) in Hf by done. by exists A.
  - intros (A & HA & -> & Hf). split; [|by apply list_elem_of_fmap_2].
    exists A. simpl. split_and!; [done..|]. by apply list_elem_of_fmap_2.
Qed.

(** X2.  After a load that ended well the friends of a record's person,
    as [person.friends] gives them, are the persons of exactly the records
    whose id the record lists, each once; [get_friends_of_person] returns
    them for the record's name when no other record bears it. *)
Theorem friends_exact (read_csv : Files) (session : Store) (csv_path : string)
    (df : DataFrame) (s : Store) (R : Row) :
  read_csv "members.csv"%string = Ok df →
  load_data_from_csv read_csv session csv_path = (s, Ok ()) →
  R ∈ rows df →
  (∀ q, q ∈ Person_friends s (person_of_row R) ↔
        ∃ T, T ∈ rows df ∧ q = person_of_row T ∧ ID T ∈ Friendships R)
  ∧ NoDup (Person_friends s (person_of_row R))
  ∧ (name_unique (rows df) R →
       get_friends_of_person s (display_name (Name R) (Surname R))
       = Person_friends s (person_of_row R)).
Proof.
  intros Hread Hload HR. rewrite load_data_from_csv_unfold, Hread in Hload.
  apply load_frame_success in Hload as (-> & Hids & _ & Hfp).
  split_and!.
  - intros q. by apply Person_friends_of_row.
  - by apply Person_friends_NoDup.
  - intros Huniq. unfold get_friends_of_person. by rewrite find_person_unique.
Qed.

Lemma friends_exact_witness :
  get_friends_of_person scenario_store "John Rocha"
  = Person_friends scenario_store john
  ∧ NoDup (Person_friends scenario_store john).
Proof.
  destruct (friends_exact (λ _, Ok scenario) empty_store "members.csv" scenario
              scenario_store
              (mkRow 0 "John" "Rocha" 57 "Male" "MN" ["Fitness Club"%string] [1]))
    as (_ & Hnd & Hquery).
  - reflexivity.
  - vm_compute. reflexivity.
  - left.
  - split; [|exact Hnd]. apply Hquery.
    intros r Hr Hname. vm_compute in Hr.
    repeat (apply elem_of_cons in Hr as [->|Hr]; [done || (vm_compute in Hname; discriminate)|]).
    by apply elem_of_nil in Hr.
Defined.

(** X3.  After a load that ended well, for a record whose name no other
    record bears, [get_persons_who_consider_them_friend] on that name
    returns the persons of exactly the records that list the record's id,
    each once. *)
Theorem admirers_exact (read_csv : Files) (session : Store) (csv_path : string)
    (df : DataFrame) (s : Store) (B : Row) :
  read_csv "members.csv"%string = Ok df →
  load_data_from_csv read_csv session csv_path = (s, Ok ()) →
  B ∈ rows df → name_unique (rows df) B →
  (∀ q, q ∈ get_persons_who_consider_them_friend s (display_name (Name B) (Surname B)) ↔
        ∃ A, A ∈ rows df ∧ q = person_of_row A ∧ ID B ∈ Friendships A)
  ∧ NoDup (get_persons_who_consider_them_friend s (display_name (Name B) (Surname B))).
Proof.
  intros Hread Hload HB Huniq. rewrite load_data_from_csv_unfold, Hread in Hload.
  apply load_frame_success in Hload as (-> & Hids & _).
  unfold get_persons_who_consider_them_friend. rewrite find_person_unique by done.
  split.
  - intros q. by apply admirers_of_row.
  - by apply NoDup_filter, people_NoDup.
Qed.

Lemma admirers_exact_witness :
  (ghost ∈ get_persons_who_consider_them_friend scenario_store "John Rocha")
  ∧ NoDup (get_persons_who_consider_them_friend scenario_store "John Rocha").
Proof.
  destruct (admirers_exact (λ _, Ok scenario) empty_store "members.csv" scenario
              scenario_store
              (mkRow 0 "John" "Rocha" 57 "Male" "MN" ["Fitness Club"%string] [1]))
    as (Hin & Hnd).
  - reflexivity.
  - vm_compute. reflexivity.
  - left.
  - intros r Hr Hname. vm_compute in Hr.
    repeat (apply elem_of_cons in Hr as [->|Hr]; [done || (vm_compute in Hname; discriminate)|]).
    by apply elem_of_nil in Hr.
  - split; [|exact Hnd]. apply Hin.
    exists (mkRow 2 "Ghost" EmptyString 30 "Male" "NY" [] [0]).
    split_and!; [right; right; left|reflexivity|left].
Defined.

(** X4.  The two friendship queries are converse to each other: after a
    load that ended well, for two records whose names no other record
    bears, the person of [b] is among the friends of [a]'s name exactly
    when the person of [a] is among those who consider [b]'s name a
    friend, and both hold exactly when [a] lists the id of [b]. *)
Theorem friends_admirers_converse (read_csv : Files) (session : Store)
    (csv_path : string) (df : DataFrame) (s : Store) (a b : Row) :
  read_csv "members.csv"%string = Ok df →
  load_data_from_csv read_csv session csv_path = (s, Ok ()) →
  a ∈ rows df → b ∈ rows df →
  name_unique (rows df) a → name_unique (rows df) b →
  (person_of_row b ∈ get_friends_of_person s (display_name (Name a) (Surname a))
   ↔ ID b ∈ Friendships a)
  ∧ (person_of_row a
     ∈ get_persons_who_consider_them_friend s (display_name (Name b) (Surname b))
     ↔ ID b ∈ Friendships a).
Proof.
  intros Hread Hload Ha Hb Hua Hub. rewrite load_data_from_csv_unfold, Hread in Hload.
  apply load_frame_success in Hload as (-> & Hids & _).
  unfold get_friends_of_person, get_persons_who_consider_them_friend.
  rewrite !find_person_unique by done.
  change (Person.id (person_of_row b)) with (ID b).
  rewrite Person_friends_of_row, admirers_of_row by done.
  split; split.
  - intros (T & HT & Heq & Hf). apply (f_equal Person.id) in Heq. simpl in Heq.
    by rewrite (NoDup_fmap_eq ID (rows df) b T).
  - intros Hf. by exists b.
  - intros (A & HA & Heq & Hf). apply (f_equal Person.id) in Heq. simpl in Heq.
    by rewrite (NoDup_fmap_eq ID (rows df) a A).
  - intros Hf. by exists a.
Qed.

Lemma friends_admirers_converse_witness :
  (amanda ∈ get_friends_of_person scenario_store "John Rocha")
  ∧ (john ∈ get_persons_who_consider_them_friend scenario_store "Amanda Norris").
Proof.
  assert (∀ r0, r0 ∈ rows scenario → name_unique (rows scenario) r0) as Huniq.
  { intros r0 Hr0 r Hr Hname. vm_compute in Hr, Hr0.
    repeat (apply elem_of_cons in Hr0 as [->|Hr0]);
      try (by apply elem_of_nil in Hr0);
      repeat (apply elem_of_cons in Hr as [->|Hr]);
      try (by apply elem_of_nil in Hr);
      done || (vm_compute in Hname; discriminate). }
  destruct (friends_admirers_converse (λ _, Ok scenario) empty_store "members.csv" scenario
              scenario_store
              (mkRow 0 "John" "Rocha" 57 "Male" "MN" ["Fitness Club"%string] [1])
              (mkRow 1 "Amanda" "Norris" 27 "Female" "CA" ["Fitness Club"%string] []))
    as [H1 H2].
  - reflexivity.
  - vm_compute. reflexivity.
  - left.
  - right; left.
  - apply Huniq. left.
  - apply Huniq. right; left.
  - split; [apply H1|apply H2]; left.
Defined.

(** ** What every load keeps *)

Lemma membership_pairs_elem (rs : list Row) (i : Z) (d : string) :
  (i, d) ∈ membership_pairs rs ↔ ∃ r, r ∈ rs ∧ ID r = i ∧ d ∈ Clubs r.
Proof.
  unfold membership_pairs. rewrite list_elem_of_bind. split.
  - intros (r & (d' & [= -> ->] & Hd)%list_elem_of_fmap & Hr). by exists r.
  - intros (r & Hr & <- & Hd). exists r. split; [|done]. by apply list_elem_of_fmap_2.
Qed.

Lemma half_loaded_keyed (rs : list Row) :
  NoDup (ID <$> rs) → NoDup (membership_pairs rs) → well_keyed (half_loaded rs).
Proof.
  intros Hids Hms. unfold well_keyed. simpl. split_and!.
  - by rewrite person_ids.
  - apply club_ids_NoDup.
  - constructor.
  - by apply member_table_NoDup.
Qed.

Lemma loaded_keyed (rs : list Row) :
  NoDup (ID <$> rs) → NoDup (membership_pairs rs) → NoDup (friend_pairs rs) →
  well_keyed (loaded rs).
Proof.
  intros Hids Hms Hfp. destruct (half_loaded_keyed rs Hids Hms) as (? & ? & _ & ?).
  by split_and!.
Qed.

Lemma member_table_resolves (rs : list Row) (m : Z * Z) :
  m ∈ member_table rs →
  m.1 ∈ ID <$> rs ∧ m.2 ∈ Club.id <$> club_table rs.
Proof.
  intros ([i d] & -> & Hx)%list_elem_of_fmap. simpl.
  apply membership_pairs_elem in Hx as (r & Hr & <- & Hd). split.
  - by apply list_elem_of_fmap_2.
  - apply (list_elem_of_fmap_2' _ _ (Club.mk (club_id_of rs d) d)); [|done].
    apply club_of_description. apply list_elem_of_bind. by exists r.
Qed.

Lemma friend_pairs_resolve (rs : list Row) (e : Z * Z) :
  e ∈ friend_pairs rs → e.1 ∈ ID <$> rs ∧ e.2 ∈ ID <$> rs.
Proof.
  destruct e as [i f]. intros (r & Hr & <- & _ & Hf)%friend_pairs_elem. simpl.
  split; [by apply list_elem_of_fmap_2|done].
Qed.

Lemma empty_store_resolves : references_resolve empty_store.
Proof. split; by intros x ?%elem_of_nil. Qed.

Lemma half_loaded_resolves (rs : list Row) : references_resolve (half_loaded rs).
Proof.
  split; simpl.
  - by intros e ?%elem_of_nil.
  - intros m Hm. rewrite person_ids. by apply member_table_resolves.
Qed.

Lemma loaded_resolves (rs : list Row) : references_resolve (loaded rs).
Proof.
  split; simpl.
  - intros e He. rewrite person_ids. by apply friend_pairs_resolve.
  - intros m Hm. rewrite person_ids. by apply member_table_resolves.
Qed.

(** X5.  Whatever the file holds and however the load ends, the store it
    leaves respects the primary keys of the schema: no two persons with
    one id, no two clubs with one id, no friendship row and no membership
    row twice. *)
Theorem keys_hold_after_load (read_csv : Files) (session : Store) (csv_path : string) :
  well_keyed (load_data_from_csv read_csv session csv_path).1.
Proof.
  rewrite load_data_from_csv_unfold.
  destruct (read_csv "members.csv"%string) as [df|e].
  2:{ unfold well_keyed. simpl. split_and!; constructor. }
  destruct (load_frame empty_store (Ok df)) as [s out] eqn:Hload. simpl.
  apply load_frame_cases in Hload
    as [[-> _]|(Hids & Hms & [[-> _]|(-> & _ & Hfp)])].
  - unfold well_keyed. simpl. split_and!; constructor.
  - by apply half_loaded_keyed.
  - by apply loaded_keyed.
Qed.

(** X6.  Whatever the file holds and however the load ends, every row of
    [friendships] left in the store joins the ids of two stored persons
    and every row of [club_members] joins the id of a stored person and
    the id of a stored club, though the data base does not enforce it. *)
Theorem references_hold_after_load (read_csv : Files) (session : Store)
    (csv_path : string) :
  references_resolve (load_data_from_csv read_csv session csv_path).1.
Proof.
  rewrite load_data_from_csv_unfold.
  destruct (read_csv "members.csv"%string) as [df|e].
  2:{ apply empty_store_resolves. }
  destruct (load_frame empty_store (Ok df)) as [s out] eqn:Hload. simpl.
  apply load_frame_cases in Hload
    as [[-> _]|(Hids & Hms & [[-> _]|(-> & _ & Hfp)])].
  - apply empty_store_resolves.
  - apply half_loaded_resolves.
  - apply loaded_resolves.
Qed.

(** X7.  A file with a header and no row loads without error, whatever
    columns the header has or lacks, and leaves the store empty. *)
Theorem header_only_loads (read_csv : Files) (session : Store) (csv_path : string)
    (df : DataFrame) :
  read_csv "members.csv"%string = Ok df → rows df = [] →
  load_data_from_csv read_csv session csv_path = (empty_store, Ok ()).
Proof.
  intros Hread Hrows. rewrite load_data_from_csv_unfold, Hread.
  by apply load_frame_no_rows.
Qed.

Lemma header_only_loads_witness :
  load_data_from_csv (λ _, Ok (mkFrame ["ID"; "Name"]%string [])) stale_store "members.csv"
  = (empty_store, Ok ()).
Proof.
  apply (header_only_loads _ _ _ (mkFrame ["ID"; "Name"]%string [])); reflexivity.
Defined.

(** ** Which error a missing column gives *)

Lemma first_missing_skip (df : DataFrame) (c : string) (cs : list string) :
  c ∈ columns df →
  head (filter (λ c, c ∉ columns df) (c :: cs)) = head (filter (λ c, c ∉ columns df) cs).
Proof. intros Hc. by rewrite filter_cons_False by (intros Hn; by apply Hn). Qed.

Lemma first_missing_here (df : DataFrame) (c : string) (cs : list string) :
  c ∉ columns df → head (filter (λ c, c ∉ columns df) (c :: cs)) = Some c.
Proof. intros Hc. by rewrite filter_cons_True. Qed.

(** One column further in the reading order: either the frame has it, or
    it is the first missing one and [row[c]] raises. *)
Ltac read_column df col Hhead :=
  destruct (decide (col ∈ columns df));
  [ rewrite (getitem_ok df col) by assumption;
    rewrite (first_missing_skip df col) in Hhead by assumption
  | rewrite (getitem_raise df col) by assumption;
    rewrite (first_missing_here df col) in Hhead by assumption;
    injection Hhead as <-; reflexivity ].

Lemma add_row_first_missing (df : DataFrame) (st : Pass1) (r : Row) (c : string) :
  first_missing df = Some c → c ≠ "Friendships"%string →
  add_row df st r = Raise (KeyError (KStr c)).
Proof.
  intros Hhead Hne. unfold first_missing, all_columns in Hhead. unfold add_row.
  read_column df "ID"%string Hhead. read_column df "Name"%string Hhead.
  read_column df "Surname"%string Hhead. read_column df "Age"%string Hhead.
  read_column df "Gender"%string Hhead. read_column df "Location"%string Hhead.
  read_column df "Clubs"%string Hhead.
  destruct (decide ("Friendships"%string ∈ columns df)).
  - by rewrite first_missing_skip in Hhead.
  - rewrite first_missing_here in Hhead by done. by injection Hhead as <-.
Qed.

Lemma first_missing_friendships (df : DataFrame) :
  first_missing df = Some "Friendships"%string →
  pass1_columns ⊆ columns df ∧ "Friendships"%string ∉ columns df.
Proof.
  intros Hhead. unfold first_missing, all_columns in Hhead.
  assert (∀ col cs, col ≠ "Friendships"%string →
            head (filter (λ c, c ∉ columns df) (col :: cs)) = Some "Friendships"%string →
            col ∈ columns df
            ∧ head (filter (λ c, c ∉ columns df) cs) = Some "Friendships"%string) as Hstep.
  { intros col cs Hne Hh. destruct (decide (col ∈ columns df)) as [Hin|Hout].
    - by rewrite first_missing_skip in Hh.
    - rewrite first_missing_here in Hh by done. congruence. }
  apply Hstep in Hhead as [H1 Hhead]; [|done]. apply Hstep in Hhead as [H2 Hhead]; [|done].
  apply Hstep in Hhead as [H3 Hhead]; [|done]. apply Hstep in Hhead as [H4 Hhead]; [|done].
  apply Hstep in Hhead as [H5 Hhead]; [|done]. apply Hstep in Hhead as [H6 Hhead]; [|done].
  apply Hstep in Hhead as [H7 Hhead]; [|done].
  split.
  - intros c Hc. unfold pass1_columns in Hc.
    repeat (apply elem_of_cons in Hc; destruct Hc as [Hc|Hc]; [by subst|]).
    by apply elem_of_nil in Hc.
  - intros Hin. by rewrite first_missing_skip in Hhead.
Qed.

Lemma wire_row_no_friendships (df : DataFrame) (pd : gmap Z Person.t) (p : Pending)
    (r : Row) :
  "ID"%string ∈ columns df → "Friendships"%string ∉ columns df →
  is_Some (pd !! ID r) →
  wire_row df pd p r = Raise (KeyError (KStr "Friendships")).
Proof.
  intros Hid Hfr [person Hperson]. unfold wire_row.
  rewrite (getitem_ok df "ID") by done. simpl. rewrite Hperson. simpl.
  by rewrite getitem_raise.
Qed.

Lemma load_frame_no_friendships_exact (df : DataFrame) :
  pass1_columns ⊆ columns df → "Friendships"%string ∉ columns df → rows df ≠ [] →
  load_frame empty_store (Ok df) =
  if decide (first_commit_ok (rows df))
  then (half_loaded (rows df), Raise (KeyError (KStr "Friendships")))
  else (empty_store, Raise (first_commit_error (rows df))).
Proof.
  intros Hcols Hfr Hrows. unfold load_frame.
  rewrite pass1_ok by done. rewrite commit_pass1.
  destruct (decide (first_commit_ok (rows df))); [|done].
  destruct (pass1_pure_inv (rows df)) as [_ _ _ Hdom _].
  destruct (rows df) as [|r rs] eqn:Hr; [done|].
  simpl foldM. rewrite wire_row_no_friendships; [done| |done|].
  - apply Hcols. unfold pass1_columns. set_solver.
  - apply Hdom. rewrite fmap_cons. left.
Qed.

(** X8.  With at least one row, the error of a frame that lacks a column
    names the first missing column in the order the code reads them.  A
    column of the first loop raises its [KeyError] before anything is
    committed.  The Friendships column raises its [KeyError] after the
    first commit, which has made the persons, clubs and memberships,
    unless that commit has raised before and left the store empty:
    [IntegrityError] for a repeated id or club when the integers fit an
    INTEGER, [OverflowError] for an integer that does not fit when the ids
    are distinct, and one of the two in every case. *)
Theorem missing_column_error (read_csv : Files) (session : Store) (csv_path : string)
    (df : DataFrame) (c : string) :
  read_csv "members.csv"%string = Ok df → rows df ≠ [] →
  first_missing df = Some c →
  let out := load_data_from_csv read_csv session csv_path in
  let in_range := ∀ r, r ∈ rows df → int64 (ID r) ∧ int64 (Age r) in
  let ids_ok := NoDup (ID <$> rows df) in
  let clubs_ok := ∀ r, r ∈ rows df → NoDup (Clubs r) in
  (c ≠ "Friendships"%string → out = (empty_store, Raise (KeyError (KStr c))))
  ∧ (c = "Friendships"%string →
       (in_range → ids_ok → clubs_ok →
          out = (half_loaded (rows df), Raise (KeyError (KStr "Friendships"))))
       ∧ (in_range → ¬ (ids_ok ∧ clubs_ok) → out = (empty_store, Raise IntegrityError))
       ∧ (ids_ok → ¬ in_range → out = (empty_store, Raise OverflowError))
       ∧ (¬ (in_range ∧ ids_ok ∧ clubs_ok) →
            out = (empty_store, Raise IntegrityError)
            ∨ out = (empty_store, Raise OverflowError))).
Proof.
  intros Hread Hrows Hhead. simpl. rewrite load_data_from_csv_unfold, Hread. split.
  - intros Hne. unfold load_frame.
    destruct (rows df) as [|r rs]; [done|]. simpl foldM.
    by rewrite (add_row_first_missing df pass1_init r c).
  - intros ->. apply first_missing_friendships in Hhead as [Hp1 Hfr].
    rewrite load_frame_no_friendships_exact by done.
    change (∀ r, r ∈ rows df → int64 (ID r) ∧ int64 (Age r))
      with (∀ r, r ∈ rows df → row_bindable r).
    rewrite <-Forall_forall.
    destruct (decide (first_commit_ok (rows df))) as [(Hb & Hids & Hms)|Hno].
    + pose proof (proj1 (membership_pairs_NoDup _ Hids) Hms) as Hclubs.
      split_and!; [done|by intros _ []|done|by intros []].
    + assert (¬ (Forall row_bindable (rows df) ∧ NoDup (ID <$> rows df)
                 ∧ ∀ r, r ∈ rows df → NoDup (Clubs r))) as Hno'.
      { intros (Hb & Hids & Hclubs). apply Hno. split_and!; [done..|].
        by apply membership_pairs_NoDup. }
      split_and!.
      * intros. by destruct Hno'.
      * intros Hb _. by rewrite first_commit_error_keys.
      * intros Hids Hb. by rewrite first_commit_error_range.
      * intros _. destruct (first_commit_error_kind (rows df)) as [-> | ->]; [by left|by right].
Qed.

(** A frame whose header lacks the Age and the Clubs columns, and one that
    lacks the Friendships column and holds an id beyond 64 bits. *)
Lemma missing_column_error_witness :
  load_data_from_csv
    (λ _, Ok (mkFrame ["ID"; "Name"; "Surname"; "Gender"; "Location"; "Friendships"]%string
                      (rows scenario)))
    stale_store "members.csv"
  = (empty_store, Raise (KeyError (KStr "Age")))
  ∧ load_data_from_csv (λ _, Ok beyond_int64_no_friendships) stale_store "members.csv"
    = (empty_store, Raise OverflowError).
Proof.
  split.
  - apply (missing_column_error _ _ _
             (mkFrame ["ID"; "Name"; "Surname"; "Gender"; "Location"; "Friendships"]%string
                      (rows scenario)) "Age"%string).
    + reflexivity.
    + discriminate.
    + vm_compute. reflexivity.
    + discriminate.
  - destruct (missing_column_error (λ _, Ok beyond_int64_no_friendships) stale_store
                "members.csv" beyond_int64_no_friendships "Friendships"%string)
      as [_ Hfr].
    + reflexivity.
    + discriminate.
    + vm_compute. reflexivity.
    + destruct (Hfr eq_refl) as (_ & _ & Hov & _). apply Hov.
      * vm_compute. repeat constructor; set_solver.
      * intros Hb.
        destruct (Hb (mkRow (2 ^ 63) "Dan" "Orr" 32 "Male" "VT" [] [])) as [[_ Hlt] _].
        -- vm_compute. set_solver.
        -- vm_compute in Hlt. discriminate.
Defined.

(** ** The queries after a load that stopped half way *)

Lemma no_friendships_no_answers (s : Store) (n : string) :
  friendships s = [] →
  get_friends_of_person s n = [] ∧ get_persons_who_consider_them_friend s n = [].
Proof.
  intros Hf. unfold get_friends_of_person, get_persons_who_consider_them_friend.
  destruct (find_person s n) as [p|]; [|done]. split.
  - unfold Person_friends. by rewrite Hf.
  - apply filter_none. intros q _. unfold has_friend. rewrite Hf. by intros ?%Exists_nil.
Qed.

Lemma get_club_members_half_loaded (rs : list Row) (d : string) :
  get_club_members (half_loaded rs) d = get_club_members (loaded rs) d.
Proof. reflexivity. Qed.

(** X9.  A file that lacks only the Friendships column, with ids and ages
    that fit an INTEGER, distinct ids and no club twice in a record: the
    load raises the [KeyError] of that column between its two commits, with
    nothing pending in the session, and the store it leaves answers
    [get_club_members] in full for every description, as after a load that
    ended well, while both friendship queries return the empty list for
    every name. *)
Theorem queries_after_missing_friendships (read_csv : Files) (session : Store)
    (csv_path : string) (df : DataFrame) :
  read_csv "members.csv"%string = Ok df → rows df ≠ [] →
  first_missing df = Some "Friendships"%string →
  (∀ r, r ∈ rows df → int64 (ID r) ∧ int64 (Age r)) →
  NoDup (ID <$> rows df) →
  (∀ r, r ∈ rows df → NoDup (Clubs r)) →
  let out := load_data_from_csv read_csv session csv_path in
  out.2 = Raise (KeyError (KStr "Friendships"))
  ∧ (∀ d, d ∈ all_clubs (rows df) →
       get_club_members out.1 d = person_of_row <$> filter (λ r, d ∈ Clubs r) (rows df))
  ∧ (∀ d, d ∉ all_clubs (rows df) → get_club_members out.1 d = [])
  ∧ (∀ n, get_friends_of_person out.1 n = []
          ∧ get_persons_who_consider_them_friend out.1 n = []).
Proof.
  intros Hread Hrows Hhead Hb Hids Hclubs. simpl.
  rewrite load_data_from_csv_unfold, Hread.
  apply first_missing_friendships in Hhead as [Hp1 Hfr].
  rewrite load_frame_no_friendships_exact by done.
  assert (NoDup (membership_pairs (rows df))) as Hms by by apply membership_pairs_NoDup.
  rewrite decide_True by (split_and!; [by apply Forall_forall|done..]).
  simpl. split_and!.
  - done.
  - intros d Hd. rewrite get_club_members_half_loaded. by apply get_club_members_loaded.
  - intros d Hd. rewrite get_club_members_half_loaded. unfold get_club_members.
    by rewrite find_club_loaded, decide_False.
  - intros n. by apply no_friendships_no_answers.
Qed.

Lemma queries_after_missing_friendships_witness :
  get_club_members
    (load_data_from_csv (λ _, Ok no_friendships_column) stale_store "members.csv").1
    "Fitness Club"
  = [john]
  ∧ get_friends_of_person
      (load_data_from_csv (λ _, Ok no_friendships_column) stale_store "members.csv").1
      "John Rocha"
    = [].
Proof.
  destruct (queries_after_missing_friendships (λ _, Ok no_friendships_column) stale_store
              "members.csv" no_friendships_column) as (_ & Hclub & _ & Hfriends).
  - reflexivity.
  - discriminate.
  - vm_compute. reflexivity.
  - intros r ->%list_elem_of_singleton. vm_compute. repeat split; discriminate.
  - vm_compute. repeat constructor; set_solver.
  - intros r ->%list_elem_of_singleton. vm_compute. repeat constructor; set_solver.
  - split.
    + rewrite Hclub; [reflexivity|]. vm_compute. left.
    + apply Hfriends.
Defined.

(** * Properties of the Singleton demonstration *)

Lemma getInstance_registers (w w1 : Singleton.World) (a : nat) :
  Singleton.getInstance w = Singleton.Returns (a, w1) →
  Singleton._instance w1 = Some a.
Proof.
  unfold Singleton.getInstance, Singleton.new.
  destruct (Singleton._instance w) as [b|] eqn:Hw.
  - by intros [= <- <-].
  - by intros [= <- <-].
Qed.

Lemma getInstance_valid (w w1 : Singleton.World) (a : nat) :
  Singleton.wf w → Singleton.getInstance w = Singleton.Returns (a, w1) →
  is_Some (Singleton.objects w1 !! a).
Proof.
  intros Hwf. unfold Singleton.getInstance, Singleton.new.
  destruct (Singleton._instance w) as [b|] eqn:Hw.
  - intros [= <- <-]. apply lookup_lt_is_Some. by apply Hwf.
  - intros [= <- <-]. simpl. apply lookup_lt_is_Some.
    rewrite length_app. simpl. lia.
Qed.

Lemma set_configs_instance (a : nat) (items : list (string * string))
    (w : Singleton.World) :
  Singleton._instance (Singleton.set_configs a w items) = Singleton._instance w.
Proof.
  revert w. induction items as [|item items IH]; intros w; [done|].
  unfold Singleton.set_configs in *. simpl. by rewrite IH.
Qed.

Lemma set_configs_lookup (a : nat) (items : list (string * string))
    (w : Singleton.World) :
  Singleton.objects (Singleton.set_configs a w items) !! a
  = (λ d, foldl (λ d item, Singleton.dict_set item.1 item.2 d) d items)
    <$> Singleton.objects w !! a.
Proof.
  revert w. induction items as [|item items IH]; intros w.
  - simpl. by destruct (Singleton.objects w !! a).
  - unfold Singleton.set_configs in *. simpl. rewrite IH. simpl.
    rewrite list_lookup_alter_eq. by destruct (Singleton.objects w !! a).
Qed.

Lemma dict_get_set (k k' v : string) (d : list (string * string)) :
  Singleton.dict_get k' (Singleton.dict_set k v d)
  = if decide (k = k') then Some v else Singleton.dict_get k' d.
Proof.
  induction d as [|[k0 v0] d IH]; simpl.
  - by destruct (decide (k = k')).
  - destruct (decide (k0 = k)) as [->|Hne]; simpl.
    + by destruct (decide (k = k')).
    + destruct (decide (k0 = k')) as [->|Hne'].
      * by rewrite decide_False by done.
      * done.
Qed.

Lemma dict_set_keys (k v : string) (d : list (string * string)) :
  (Singleton.dict_set k v d).*1 = if decide (k ∈ d.*1) then d.*1 else d.*1 ++ [k].
Proof.
  induction d as [|[k0 v0] d IH]; [done|].
  cbn [Singleton.dict_set]. destruct (decide (k0 = k)) as [->|Hne].
  - rewrite !fmap_cons. cbn [fst]. by rewrite decide_True by left.
  - rewrite !fmap_cons, IH. cbn [fst]. destruct (decide (k ∈ d.*1)) as [Hin|Hout].
    + by rewrite decide_True by (by right).
    + rewrite decide_False; [done|]. by intros [->|?]%elem_of_cons.
Qed.

(** A dict filled from empty: its keys in first-set order, each with the
    value set last. *)
Lemma dict_filled (items : list (string * string)) :
  let d := foldl (λ d item, Singleton.dict_set item.1 item.2 d) [] items in
  d.*1 = first_seen items.*1
  ∧ ∀ k, Singleton.dict_get k d = snd <$> last (filter (λ item, item.1 = k) items).
Proof.
  cbv zeta. induction items as [|[k v] items IH] using rev_ind; [done|].
  destruct IH as [Hkeys Hget]. rewrite foldl_app. cbn [foldl fst snd]. split.
  - rewrite dict_set_keys, Hkeys, fmap_app.
    change ([(k, v)].*1) with [k]. by rewrite first_seen_snoc.
  - intros k'. rewrite dict_get_set, filter_app, Hget.
    destruct (decide (k = k')) as [->|Hne].
    + rewrite filter_cons_True by done. by rewrite filter_nil, last_snoc.
    + rewrite filter_cons_False by done. by rewrite filter_nil, app_nil_r.
Qed.

(** X11.  [getInstance] never raises, and once it has returned an object
    every later call returns that same object and changes nothing,
    whatever [set_config] calls came in between: the assertion the
    notebook ends with. *)
Theorem getInstance_same_object (w : Singleton.World) :
  (∃ a w1, Singleton.getInstance w = Singleton.Returns (a, w1))
  ∧ ∀ a w1 items,
      Singleton.getInstance w = Singleton.Returns (a, w1) →
      Singleton.getInstance (Singleton.set_configs a w1 items)
      = Singleton.Returns (a, Singleton.set_configs a w1 items).
Proof.
  split.
  - unfold Singleton.getInstance, Singleton.new.
    destruct (Singleton._instance w); by eexists _, _.
  - intros a w1 items Hget%getInstance_registers.
    unfold Singleton.getInstance. by rewrite set_configs_instance, Hget.
Qed.

Lemma getInstance_same_object_witness :
  Singleton.getInstance
    (Singleton.set_configs 0 (Singleton.mkWorld (Some 0%nat) [[]]) [("database", "PostgreSQL")]%string)
  = Singleton.Returns
      (0%nat, Singleton.set_configs 0 (Singleton.mkWorld (Some 0%nat) [[]])
                [("database", "PostgreSQL")]%string).
Proof.
  apply (getInstance_same_object Singleton.initial). reflexivity.
Defined.

(** X12.  Once an object is registered, by [getInstance] or by a direct
    [Singleton()], a further [Singleton()] raises, and [getInstance]
    returns the registered object. *)
Theorem second_construction_raises (w w1 : Singleton.World) (a : nat) :
  Singleton.getInstance w = Singleton.Returns (a, w1)
  ∨ Singleton.new w = Singleton.Returns (a, w1) →
  Singleton.new w1 = Singleton.RaisesException "This class is a singleton!"
  ∧ Singleton.getInstance w1 = Singleton.Returns (a, w1).
Proof.
  intros Hmade.
  assert (Singleton._instance w1 = Some a) as Hreg.
  { destruct Hmade as [Hget|Hnew]; [by eapply getInstance_registers|].
    unfold Singleton.new in Hnew. destruct (Singleton._instance w); [done|].
    by injection Hnew as <- <-. }
  unfold Singleton.getInstance, Singleton.new. by rewrite Hreg.
Qed.

Lemma second_construction_raises_witness :
  Singleton.new (Singleton.mkWorld (Some 0%nat) [[]])
  = Singleton.RaisesException "This class is a singleton!".
Proof.
  apply (second_construction_raises Singleton.initial _ 0%nat). right. reflexivity.
Defined.

(** X13.  The configuration is shared: a value set through the object one
    call of [getInstance] returned is what [get_config] gives for that key
    through the object a later call returns, other keys keep what they
    had, and a key never set gives [None]. *)
Theorem config_round_trip (w w1 : Singleton.World) (a : nat) (k v : string) :
  Singleton.wf w →
  Singleton.getInstance w = Singleton.Returns (a, w1) →
  (∀ b w3, Singleton.getInstance (Singleton.set_config w1 a k v) = Singleton.Returns (b, w3) →
     Singleton.get_config w3 b k = Some v
     ∧ ∀ k', k' ≠ k → Singleton.get_config w3 b k' = Singleton.get_config w1 a k')
  ∧ (Singleton._instance w = None → ∀ k', Singleton.get_config w1 a k' = None).
Proof.
  intros Hwf Hget. split.
  - intros b w3 Hagain.
    destruct (getInstance_valid w w1 a Hwf Hget) as [d Hd].
    apply getInstance_registers in Hget.
    unfold Singleton.getInstance in Hagain. simpl in Hagain. rewrite Hget in Hagain.
    injection Hagain as <- <-.
    unfold Singleton.get_config, Singleton.set_config. simpl.
    rewrite list_lookup_alter_eq, Hd. simpl. split.
    + rewrite dict_get_set. by rewrite decide_True.
    + intros k' Hne. rewrite dict_get_set. by rewrite decide_False.
  - intros Hnone k'. unfold Singleton.getInstance, Singleton.new in Hget.
    rewrite Hnone in Hget. injection Hget as <- <-.
    unfold Singleton.get_config. simpl.
    by rewrite (list_lookup_middle _ [] _ (length (Singleton.objects w))).
Qed.

Lemma config_round_trip_witness :
  Singleton.get_config
    (Singleton.set_config (Singleton.mkWorld (Some 0%nat) [[]]) 0 "database" "PostgreSQL")
    0 "database"
  = Some "PostgreSQL"%string.
Proof.
  destruct (config_round_trip Singleton.initial (Singleton.mkWorld (Some 0%nat) [[]]) 0
              "database" "PostgreSQL") as [Hset _].
  - by intros self.
  - reflexivity.
  - by apply (Hset 0%nat _).
Defined.

(** X14.  After any run of [set_config] calls on a new instance,
    [display_config] prints one line per distinct key, in the order the
    keys were first set, each with the value set last. *)
Theorem display_config_order (w w1 : Singleton.World) (a : nat)
    (items : list (string * string)) :
  Singleton._instance w = None →
  Singleton.getInstance w = Singleton.Returns (a, w1) →
  ∃ d, Singleton.display_config (Singleton.set_configs a w1 items) a
       = Singleton.line <$> d
       ∧ d.*1 = first_seen items.*1
       ∧ ∀ k, Singleton.dict_get k d = snd <$> last (filter (λ item, item.1 = k) items).
Proof.
  intros Hnone Hget. unfold Singleton.getInstance, Singleton.new in Hget.
  rewrite Hnone in Hget. injection Hget as <- <-.
  exists (foldl (λ d item, Singleton.dict_set item.1 item.2 d) [] items).
  split; [|apply dict_filled].
  unfold Singleton.display_config. rewrite set_configs_lookup. simpl.
  by rewrite (list_lookup_middle _ [] _ (length (Singleton.objects w))).
Qed.

Lemma display_config_order_witness :
  ∃ d, Singleton.display_config
         (Singleton.set_configs 0 (Singleton.mkWorld (Some 0%nat) [[]])
            [("database", "MySQL"); ("cache", "on"); ("database", "PostgreSQL")]%string) 0
       = Singleton.line <$> d
       ∧ d.*1 = ["database"; "cache"]%string
       ∧ Singleton.dict_get "database" d = Some "PostgreSQL"%string.
Proof.
  destruct (display_config_order Singleton.initial (Singleton.mkWorld (Some 0%nat) [[]]) 0
              [("database", "MySQL"); ("cache", "on"); ("database", "PostgreSQL")]%string)
    as (d & Hlines & Hkeys & Hget).
  - reflexivity.
  - reflexivity.
  - exists d. split_and!.
    + exact Hlines.
    + rewrite Hkeys. vm_compute. reflexivity.
    + rewrite Hget. vm_compute. reflexivity.
Defined.

(** The notebook's own run: one key set, read back through a second call. *)
Example notebook_run :
  ∃ w1 w2,
    Singleton.getInstance Singleton.initial = Singleton.Returns (0%nat, w1)
    ∧ Singleton.getInstance (Singleton.set_config w1 0 "database" "PostgreSQL")
      = Singleton.Returns (0%nat, w2)
    ∧ Singleton.display_config w2 0 = ["database: PostgreSQL"%string].
Proof. by eexists _, _. Qed.
